(** * Ecommerce sessions dashboard: field normalizer, filter engine, aggregates

    A shallow embedding of [streamlit_dashboard.py].  The script is one
    render pass over a pandas DataFrame:

    - lines 50-58 flatten the nested sub-objects of every session document
      into nine flat columns ([Normalizer]);
    - lines 86-91 select the rows that pass the sidebar filters ([Filter]);
    - lines 107-124 and 193-205 compute the scalar metrics ([Metrics]);
    - lines 157, 178 and 209 compute the grouped aggregates ([Aggregates]);
    - line 96 exports the filtered table as CSV ([Csv]).

    Python exceptions are values of [pyerr]; code that can raise returns a
    [result]. *)

From stdpp Require Import base decidable option numbers list sorting strings gmap.
From Stdlib Require Import ZArith QArith Qcanon Ascii Lia Uint63 PrimFloat.

Local Open Scope string_scope.
Local Open Scope list_scope.
Local Open Scope Z_scope.

(** ** Exceptions and the error monad *)

Inductive pyerr : Type :=
  | KeyError (key : string)
  | AttributeError
  | IndexError
  | ZeroDivisionError
  | CsvError.

Inductive result (A : Type) : Type :=
  | Ok (a : A)
  | Raise (e : pyerr).
Arguments Ok {A} a.
Arguments Raise {A} e.

#[global] Instance result_ret : MRet result := @Ok.
#[global] Instance result_bind : MBind result := fun A B f m =>
  match m with
  | Ok a => f a
  | Raise e => Raise e
  end.

(** [[f x for x in l]] where [f] may raise: the first exception wins. *)
Fixpoint traverse {A B : Type} (f : A -> result B) (l : list A) : result (list B) :=
  match l with
  | [] => Ok []
  | x :: l' => y ← f x; ys ← traverse f l'; Ok (y :: ys)
  end.

(** ** Documents and frames *)

(** Scalar values found in a session document. [PTime] is a timestamp in
    nanoseconds since the epoch, [PFloat] a Python [float]: a binary64
    value, with the arithmetic of the kernel's [PrimFloat]. *)
Inductive pyval : Type :=
  | PNone
  | PStr (s : string)
  | PInt (z : Z)
  | PFloat (f : float)
  | PTime (ns : Z).

(** One cell of a DataFrame of documents: a scalar, a nested mapping, or
    the [NaN] pandas fills in where a document lacks the column's key. *)
Inductive cell : Type :=
  | CNaN
  | CScalar (v : pyval)
  | CDict (d : gmap string pyval).

(** A session document as the store returns it: top-level keys to cells. *)
Abbreviation doc := (gmap string cell).

(** A DataFrame: its columns and its rows.  A row stores the cells it has;
    a column's cell missing from a row reads as [CNaN]. *)
Record frame : Type := Frame {
  columns : gset string;
  rows : list doc
}.

Module Normalizer.

(** [pd.DataFrame(sessions)], line 35: the columns are the union of the
    documents' keys. *)
Definition from_records (sessions : list doc) : frame :=
  {| columns := ⋃ (dom <$> sessions); rows := sessions |}.

Definition cell_at (r : doc) (c : string) : cell := default CNaN (r !! c).

(** [df[c]]: the column as a list of cells, [KeyError] when the frame has
    no such column. *)
Definition getitem (df : frame) (c : string) : result (list cell) :=
  if decide (c ∈ columns df) then Ok ((fun r => cell_at r c) <$> rows df)
  else Raise (KeyError c).

(** [x.get(key, dflt)] on a cell: only a mapping has [get]; a float [NaN]
    or any other scalar raises [AttributeError]. *)
Definition get (x : cell) (key : string) (dflt : pyval) : result pyval :=
  match x with
  | CDict d => Ok (default dflt (d !! key))
  | CNaN | CScalar _ => Raise AttributeError
  end.

(** [df[dst] = values]. *)
Definition setitem (df : frame) (dst : string) (values : list pyval) : frame :=
  {| columns := {[dst]} ∪ columns df;
     rows := zip_with (fun r v => <[dst := CScalar v]> r) (rows df) values |}.

(** One line of the block 50-58:
    [df[dst] = df[src].apply(lambda x: x.get(key, dflt))]. *)
Definition extract (dst src key : string) (dflt : pyval) (df : frame) : result frame :=
  col ← getitem df src;
  values ← traverse (fun x => get x key dflt) col;
  Ok (setitem df dst values).

Definition Unknown : pyval := PStr "Unknown".

(** Lines 50-58, in order. *)
Definition extract_nested_fields (df : frame) : result frame :=
  df ← extract "device" "deviceInfo" "device" Unknown df;
  df ← extract "browser" "deviceInfo" "browser" Unknown df;
  df ← extract "source" "sessionMetadata" "source" Unknown df;
  df ← extract "sales" "sessionMetadata" "sales" (PInt 0) df;
  df ← extract "pageViews" "sessionMetadata" "pageViews" (PInt 0) df;
  df ← extract "duration" "sessionMetadata" "duration" (PInt 0) df;
  df ← extract "session_type" "sessionTags" "type" Unknown df;
  df ← extract "segment" "sessionTags" "segment" Unknown df;
  extract "category" "sessionTags" "category" Unknown df.

(** The nine derived columns with, for each, the sub-object and key it is
    read from and its default. *)
Definition derived_fields : list (string * (string * string * pyval)) :=
  [ ("device", ("deviceInfo", "device", Unknown));
    ("browser", ("deviceInfo", "browser", Unknown));
    ("source", ("sessionMetadata", "source", Unknown));
    ("sales", ("sessionMetadata", "sales", PInt 0));
    ("pageViews", ("sessionMetadata", "pageViews", PInt 0));
    ("duration", ("sessionMetadata", "duration", PInt 0));
    ("session_type", ("sessionTags", "type", Unknown));
    ("segment", ("sessionTags", "segment", Unknown));
    ("category", ("sessionTags", "category", Unknown)) ].

(** The nested sub-objects the block reads. *)
Definition sub_objects : list string := ["deviceInfo"; "sessionMetadata"; "sessionTags"].

Definition is_dict_at (src : string) (r : doc) : Prop :=
  match r !! src with
  | Some (CDict _) => True
  | _ => False
  end.

#[global] Instance is_dict_at_dec src r : Decision (is_dict_at src r).
Proof. unfold is_dict_at. destruct (r !! src) as [[]|]; apply _. Defined.

(** A document that carries its three nested sub-objects as mappings. *)
Definition has_subobjects (d : doc) : Prop :=
  Forall (fun src => is_dict_at src d) sub_objects.

#[global] Instance has_subobjects_dec d : Decision (has_subobjects d).
Proof. unfold has_subobjects. apply _. Defined.

Definition derived_names : gset string := list_to_set (fst <$> derived_fields).

(** The value [x.get(key, dflt)] has on the sub-object [src] of a row. *)
Definition nested (r : doc) (src key : string) (dflt : pyval) : pyval :=
  match r !! src with
  | Some (CDict m) => default dflt (m !! key)
  | _ => dflt
  end.

Definition assign_nested (dst src key : string) (dflt : pyval) (r : doc) : doc :=
  <[dst := CScalar (nested r src key dflt)]> r.

(** The row the nine assignments make of a document that has its
    sub-objects. *)
Definition flatten (d : doc) : doc :=
  assign_nested "category" "sessionTags" "category" Unknown
  (assign_nested "segment" "sessionTags" "segment" Unknown
  (assign_nested "session_type" "sessionTags" "type" Unknown
  (assign_nested "duration" "sessionMetadata" "duration" (PInt 0)
  (assign_nested "pageViews" "sessionMetadata" "pageViews" (PInt 0)
  (assign_nested "sales" "sessionMetadata" "sales" (PInt 0)
  (assign_nested "source" "sessionMetadata" "source" Unknown
  (assign_nested "browser" "deviceInfo" "browser" Unknown
  (assign_nested "device" "deviceInfo" "device" Unknown d)))))))).

(** Sample documents. *)
Definition full_doc : doc :=
  {[ "startTime" := CScalar (PTime 0); "lastActivity" := CScalar (PTime 60000000000);
     "deviceInfo" := CDict {[ "device" := PStr "mobile"; "browser" := PStr "Firefox" ]};
     "sessionMetadata" := CDict {[ "source" := PStr "ads"; "sales" := PInt 50;
                                   "pageViews" := PInt 4; "duration" := PInt 120 ]};
     "sessionTags" := CDict {[ "type" := PStr "converted"; "segment" := PStr "new";
                               "category" := PStr "books" ]} ]}.

(** Every nested key missing, the three sub-objects present but empty. *)
Definition bare_doc : doc :=
  {[ "startTime" := CScalar (PTime 0); "lastActivity" := CScalar (PTime 0);
     "deviceInfo" := CDict ∅; "sessionMetadata" := CDict ∅; "sessionTags" := CDict ∅ ]}.

(** The sub-object [deviceInfo] itself missing, all else in place. *)
Definition no_device_info : doc :=
  {[ "startTime" := CScalar (PTime 0); "lastActivity" := CScalar (PTime 60000000000);
     "sessionMetadata" := CDict {[ "source" := PStr "ads"; "sales" := PInt 50;
                                   "pageViews" := PInt 4; "duration" := PInt 120 ]};
     "sessionTags" := CDict {[ "type" := PStr "converted"; "segment" := PStr "new";
                               "category" := PStr "books" ]} ]}.

End Normalizer.

(** ** The typed table

    After normalization the dashboard reads ten columns.  Categorical
    columns hold [str]; [pageViews] and [duration] hold integers, stored
    as [int64].  [sales] is numeric: while every document holds an integer
    amount the column is stored as [int64], and as soon as one of them
    holds a fraction the whole column is stored as [float64].  [RowOf S]
    is a row of a table whose [sales] are stored with type [S]. *)
Record RowOf (S : Type) : Type := mkRow {
  startTime : Z;          (* Timestamp, nanoseconds since the epoch *)
  device : string;
  browser : string;
  source : string;
  sales : S;
  pageViews : Z;
  duration : Z;
  session_type : string;
  segment : string;
  category : string
}.
Arguments mkRow {S} _ _ _ _ _ _ _ _ _ _.
Arguments startTime {S} _.
Arguments device {S} _.
Arguments browser {S} _.
Arguments source {S} _.
Arguments sales {S} _.
Arguments pageViews {S} _.
Arguments duration {S} _.
Arguments session_type {S} _.
Arguments segment {S} _.
Arguments category {S} _.

(** A row of a table with integer sales, and one with fractional sales. *)
Abbreviation Row := (RowOf Z).
Abbreviation FloatRow := (RowOf float).

#[global] Instance Row_eq_dec : EqDecision Row.
Proof. solve_decision. Defined.

Definition str_cell (r : doc) (c : string) : option string :=
  match r !! c with Some (CScalar (PStr s)) => Some s | _ => None end.
Definition int_cell (r : doc) (c : string) : option Z :=
  match r !! c with Some (CScalar (PInt z)) => Some z | _ => None end.
Definition time_cell (r : doc) (c : string) : option Z :=
  match r !! c with Some (CScalar (PTime ns)) => Some ns | _ => None end.

(** An integer below [2^63] in magnitude as the [float64] nearest to it. *)
Definition float_of_int (z : Z) : float :=
  if bool_decide (z < 0) then PrimFloat.opp (PrimFloat.of_uint63 (Uint63.of_Z (- z)))
  else PrimFloat.of_uint63 (Uint63.of_Z z).

(** A cell of a [float64] column: a [float] as it is, an [int] converted. *)
Definition float_cell (r : doc) (c : string) : option float :=
  match r !! c with
  | Some (CScalar (PFloat f)) => Some f
  | Some (CScalar (PInt z)) => Some (float_of_int z)
  | _ => None
  end.

(** The typed view of a normalized row, when its cells have the data
    model's types; [sales_cell] reads the [sales] column as the table
    stores it. *)
Definition typed_row_of {S : Type} (sales_cell : doc -> string -> option S)
    (r : doc) : option (RowOf S) :=
  t ← time_cell r "startTime";
  dev ← str_cell r "device"; br ← str_cell r "browser";
  src ← str_cell r "source"; sa ← sales_cell r "sales";
  pv ← int_cell r "pageViews"; du ← int_cell r "duration";
  ty ← str_cell r "session_type"; sg ← str_cell r "segment";
  ca ← str_cell r "category";
  Some (mkRow t dev br src sa pv du ty sg ca).

Definition typed_row : doc -> option Row := typed_row_of int_cell.
Definition typed_float_row : doc -> option FloatRow := typed_row_of float_cell.

(** [t[i]] on a tuple or an array. *)
Definition index {A : Type} (t : list A) (i : nat) : result A :=
  match t !! i with
  | Some x => Ok x
  | None => Raise IndexError
  end.

Module Filter.

Definition ns_per_day : Z := 86400 * 1000000000.

(** [.dt.date]: the calendar day of a timestamp, as a day number. *)
Definition date (ts : Z) : Z := ts `div` ns_per_day.

(** The boolean Series of lines 87-90. *)
Definition ge_date (col : list Z) (d : Z) : list bool := (fun x => bool_decide (d ≤ x)) <$> col.
Definition le_date (col : list Z) (d : Z) : list bool := (fun x => bool_decide (x ≤ d)) <$> col.
Definition isin (col : list string) (values : list string) : list bool :=
  (fun x => bool_decide (x ∈ values)) <$> col.
Definition and_ (a b : list bool) : list bool := zip_with andb a b.

(** [df[mask]]: a new table with the rows whose mask entry is [True]. *)
Fixpoint getitem_mask {A : Type} (df : list A) (mask : list bool) : list A :=
  match df, mask with
  | r :: df', b :: mask' =>
      if b then r :: getitem_mask df' mask' else getitem_mask df' mask'
  | _, _ => []
  end.

(** Lines 86-91. [date_range] is the tuple the date widget returned. *)
Definition apply_filters (df : list Row) (date_range : list Z)
    (devices session_types : list string) : result (list Row) :=
  let dates := (fun r => date (startTime r)) <$> df in
  d0 ← index date_range 0;
  d1 ← index date_range 1;
  Ok (getitem_mask df
        (and_ (and_ (and_ (ge_date dates d0) (le_date dates d1))
                 (isin (device <$> df) devices))
           (isin (session_type <$> df) session_types))).

(** The three predicates of the filter contract, on one row. *)
Definition passes (d0 d1 : Z) (devices session_types : list string) (r : Row) : Prop :=
  d0 ≤ date (startTime r) ≤ d1 ∧ device r ∈ devices ∧ session_type r ∈ session_types.

#[global] Instance passes_dec d0 d1 devices session_types r :
  Decision (passes d0 d1 devices session_types r).
Proof. unfold passes. apply _. Defined.

End Filter.

(** ** Numbers of the metrics block *)

(** The metrics block is followed on a table with integer sales.  Its
    [float64] results are kept up to rounding: the special values are
    exact, a finite value stands for the rational it approximates.  (Where
    rounding decides, in the sums of fractional sales, a [float64] is the
    kernel's binary64 [float].) *)
Inductive float64 : Type :=
  | FNaN
  | FInf (negative : bool)
  | FFin (q : Qc).

Inductive pynum : Type :=
  | PyInt (z : Z)          (* a Python [int] *)
  | PyFloat (f : float64)  (* a Python [float] *)
  | NpInt64 (z : Z)        (* a numpy [int64] scalar *)
  | NpFloat64 (f : float64).

(** Two's complement reduction to 64 bits. *)
Definition wrap64 (z : Z) : Z := (z + 2 ^ 63) `mod` 2 ^ 64 - 2 ^ 63.

Module Metrics.

Definition to_float (x : pynum) : float64 :=
  match x with
  | PyInt z | NpInt64 z => FFin (Qc_of_Z z)
  | PyFloat f | NpFloat64 f => f
  end.

Definition is_numpy (x : pynum) : bool :=
  match x with
  | NpInt64 _ | NpFloat64 _ => true
  | PyInt _ | PyFloat _ => false
  end.

Definition Qc_neg (q : Qc) : bool := bool_decide (q < 0)%Qc.
Definition Qc_zero (q : Qc) : bool := bool_decide (q = 0%Qc).

Definition is_zero (x : pynum) : bool :=
  match to_float x with
  | FFin q => Qc_zero q
  | _ => false
  end.

(** IEEE division: a zero divisor gives [nan] or an infinity, never an
    exception. *)
Definition fdiv (x y : float64) : float64 :=
  match x, y with
  | FNaN, _ | _, FNaN => FNaN
  | FInf _, FInf _ => FNaN
  | FInf s, FFin q => FInf (xorb s (Qc_neg q))
  | FFin _, FInf _ => FFin 0%Qc
  | FFin p, FFin q =>
      if Qc_zero q then (if Qc_zero p then FNaN else FInf (Qc_neg p))
      else FFin (p / q)%Qc
  end.

Definition fmul (x y : float64) : float64 :=
  match x, y with
  | FNaN, _ | _, FNaN => FNaN
  | FInf s, FInf t => FInf (xorb s t)
  | FInf s, FFin q | FFin q, FInf s =>
      if Qc_zero q then FNaN else FInf (xorb s (Qc_neg q))
  | FFin p, FFin q => FFin (p * q)%Qc
  end.

(** [a / b].  As soon as one operand is a numpy scalar the division is
    numpy's, which warns and returns [nan] or an infinity on a zero
    divisor; between Python numbers a zero divisor raises. *)
Definition truediv (a b : pynum) : result pynum :=
  if is_numpy a || is_numpy b then Ok (NpFloat64 (fdiv (to_float a) (to_float b)))
  else if is_zero b then Raise ZeroDivisionError
  else Ok (PyFloat (fdiv (to_float a) (to_float b))).

(** [a * b]. *)
Definition mul (a b : pynum) : pynum :=
  match a, b with
  | PyInt x, PyInt y => PyInt (x * y)
  | PyInt x, NpInt64 y | NpInt64 x, PyInt y | NpInt64 x, NpInt64 y =>
      NpInt64 (wrap64 (x * y))
  | _, _ =>
      if is_numpy a || is_numpy b then NpFloat64 (fmul (to_float a) (to_float b))
      else PyFloat (fmul (to_float a) (to_float b))
  end.

Definition sum_list_Z (l : list Z) : Z := foldr Z.add 0 l.

(** [len(df)]. *)
Definition len {A : Type} (df : list A) : Z := Z.of_nat (length df).

(** [Series.sum()] of an [int64] column. *)
Definition sum (col : list Z) : pynum := NpInt64 (wrap64 (sum_list_Z col)).


(** [(col == v).sum()]: the number of [True] entries. *)
Definition eq_str (col : list string) (v : string) : list bool :=
  (fun x => bool_decide (x = v)) <$> col.
Definition sum_bool (col : list bool) : pynum :=
  NpInt64 (wrap64 (sum_list_Z ((fun b : bool => if b then 1 else 0) <$> col))).

(** [Series.mean()]: the sum over the count, and [np.nan] (a Python
    float) when the count is 0. *)
Definition mean (col : list Z) : pynum :=
  match col with
  | [] => PyFloat FNaN
  | _ => NpFloat64 (FFin (Qc_of_Z (sum_list_Z col) / Qc_of_Z (len col))%Qc)
  end.

(** [(filtered_df['session_type'] == v).sum() / len(filtered_df) * 100],
    lines 119, 196 and 204. *)
Definition rate (v : string) (filtered_df : list Row) : result pynum :=
  q ← truediv (sum_bool (eq_str (session_type <$> filtered_df) v)) (PyInt (len filtered_df));
  Ok (mul q (PyInt 100)).

Record metrics : Type := mkMetrics {
  total_sessions : Z;
  total_sales : pynum;
  avg_duration : pynum;
  conversion_rate : pynum;
  avg_pages : pynum;
  cart_abandonment_rate : pynum;
  avg_sales_per_session : pynum;
  bounce_rate : pynum
}.

(** Lines 107-124 and 193-205, in program order, on a table with integer
    sales. *)
Definition key_metrics (filtered_df : list Row) : result metrics :=
  let total_sessions := len filtered_df in
  let total_sales := sum (sales <$> filtered_df) in
  avg_duration ← truediv (mean (duration <$> filtered_df)) (PyInt 60);
  conversion_rate ← rate "converted" filtered_df;
  let avg_pages := mean (pageViews <$> filtered_df) in
  cart_abandonment_rate ← rate "cart_abandoned" filtered_df;
  let avg_sales_per_session := mean (sales <$> filtered_df) in
  bounce_rate ← rate "bounced" filtered_df;
  Ok (mkMetrics total_sessions total_sales avg_duration conversion_rate avg_pages
        cart_abandonment_rate avg_sales_per_session bounce_rate).


End Metrics.

(** ** Grouped aggregates *)

(** Labels are ordered as Python orders [str]: [String.le], the
    lexicographic order on character codes. *)

Module Aggregates.

Section groupby.
Context {A K B : Type} `{EqDecision K}.
Context (le : K -> K -> Prop) `{!RelDecision le}.

(** The group index of [groupby(...)]: the distinct keys, sorted
    ascending ([sort=True] is the default). *)
Definition group_keys (keys : list K) : list K :=
  merge_sort le (remove_dups keys).

(** [df.groupby(key)[...].agg()]: one entry per distinct key, holding
    the aggregate of the rows with that key. *)
Definition groupby (key : A -> K) (agg : list A -> B) (df : list A) : list (K * B) :=
  (fun k => (k, agg (filter (fun r => key r = k) df)))
    <$> group_keys (key <$> df).
End groupby.

(** [values[indexer]]: positional selection, [IndexError] out of range. *)
Definition take_idx {A : Type} (values : list A) (indexer : list nat) : result (list A) :=
  traverse (index values) indexer.

(** pandas' [nargsort] for [ascending=False] on a column without missing
    values: reverse, argsort ascending, reverse the result.  [argsort] is
    numpy's [ndarray.argsort(kind='quicksort')]. *)
Definition nargsort_desc (argsort : list Z -> list nat) (items : list Z) : result (list nat) :=
  let idx := seq 0 (length items) in
  let non_nans := reverse items in
  let non_nan_idx := reverse idx in
  indexer ← take_idx non_nan_idx (argsort non_nans);
  Ok (reverse indexer).

(** [Series.sort_values(ascending=False)] on a Series of (label, value). *)
Definition sort_values_desc {K : Type} (argsort : list Z -> list nat)
    (s : list (K * Z)) : result (list (K * Z)) :=
  sorted_index ← nargsort_desc argsort (snd <$> s);
  take_idx s sorted_index.

(** [GroupBy.sum()] of an [int64] column. *)
Definition group_total (measure : Row -> Z) (g : list Row) : Z :=
  wrap64 (Metrics.sum_list_Z (measure <$> g)).




(** [filtered_df.groupby(group_field)[measure].sum().sort_values(ascending=False)]. *)
Definition group_sum (argsort : list Z -> list nat) (group_field : Row -> string)
    (measure : Row -> Z) (filtered_df : list Row) : result (list (string * Z)) :=
  sort_values_desc argsort (groupby String.le group_field (group_total measure) filtered_df).

(** Line 157. *)
Definition sales_by_source (argsort : list Z -> list nat) (filtered_df : list Row) :=
  group_sum argsort source sales filtered_df.

(** Line 209. *)
Definition sales_by_category (argsort : list Z -> list nat) (filtered_df : list Row) :=
  group_sum argsort category sales filtered_df.

(** Line 178: [filtered_df.groupby(filtered_df['startTime'].dt.date).size()]. *)
Definition sessions_by_date (filtered_df : list Row) : list (Z * Z) :=
  groupby Z.le (fun r => Filter.date (startTime r)) Metrics.len filtered_df.

(** What numpy promises of [argsort]: the indices [0 .. n-1] in an order
    that lists the items ascending.  Nothing is promised about ties. *)
Definition is_argsort (items : list Z) (ix : list nat) : Prop :=
  ix ≡ₚ seq 0 (length items) ∧
  Sorted Z.le (omap (fun i => items !! i) ix).

#[global] Instance is_argsort_dec items ix : Decision (is_argsort items ix).
Proof. unfold is_argsort. apply _. Defined.

(** numpy's scalar quicksort on at most 16 elements is its insertion sort:
<<
    for (pi = pl + 1; pi <= pr; ++pi) {
        vi = *pi; vp = v[vi]; pj = pi; pk = pi - 1;
        while (pj > pl && LT(vp, v[*pk])) { *pj-- = *pk--; }
        *pj = vi;
    }
>>
    [shift_in v vi sorted] is one pass of the inner loop; [sorted] is the
    sorted prefix, last position first. *)
Definition val_at (v : list Z) (i : nat) : Z := default 0 (v !! i).

Fixpoint shift_in (v : list Z) (vi : nat) (sorted : list nat) : list nat :=
  match sorted with
  | [] => [vi]
  | k :: sorted' =>
      if bool_decide (val_at v vi < val_at v k) then k :: shift_in v vi sorted'
      else vi :: sorted
  end.

Definition insertion_argsort (v : list Z) : list nat :=
  reverse (foldl (fun sorted vi => shift_in v vi sorted) [] (seq 0 (length v))).

(** [above v a b]: position [a] holds a value at least that of [b]. *)
Definition above (v : list Z) (a b : nat) : Prop := val_at v b ≤ val_at v a.

(** The rank of a label by first appearance in a column. *)
Fixpoint first_index (col : list string) (x : string) : nat :=
  match col with
  | [] => 0
  | y :: col' => if bool_decide (y = x) then 0%nat else S (first_index col' x)
  end.

(** Sorted descending by value. *)
Definition sorted_desc {K : Type} (out : list (K * Z)) : Prop :=
  Sorted (fun a b => (b.2 ≤ a.2)%Z) out.

(** Entries with equal values stand in the order in which their labels
    first appear in the column [col]. *)
Definition ties_by_first_appearance (col : list string) (out : list (string * Z)) : Prop :=
  ∀ i j a b, (i < j)%nat → out !! i = Some a → out !! j = Some b → a.2 = b.2 →
    (first_index col a.1 < first_index col b.1)%nat.

End Aggregates.

(** ** CSV export *)
Module Csv.

Definition comma : ascii := ","%char.
Definition dquote : ascii := ascii_of_nat 34.
Definition lf : ascii := ascii_of_nat 10.
Definition cr : ascii := ascii_of_nat 13.

(** The characters that make [csv.writer] quote a field under
    [QUOTE_MINIMAL]: the delimiter, the quote character and the line
    terminator.  [quote_cr] tells whether a carriage return counts too
    (newer versions of the [csv] module quote it whatever the line
    terminator, older ones only when it is part of the terminator). *)
Definition special (quote_cr : bool) (c : ascii) : bool :=
  bool_decide (c = comma) || bool_decide (c = dquote) || bool_decide (c = lf)
  || (quote_cr && bool_decide (c = cr)).

Fixpoint any (p : ascii -> bool) (s : string) : bool :=
  match s with
  | EmptyString => false
  | String c s' => p c || any p s'
  end.

(** [doublequote=True]: a quote character inside a field is written twice. *)
Fixpoint escape (s : string) : string :=
  match s with
  | EmptyString => EmptyString
  | String c s' =>
      if bool_decide (c = dquote) then String dquote (String dquote (escape s'))
      else String c (escape s')
  end.

Definition quoted (s : string) : string :=
  String dquote (escape s +:+ String dquote EmptyString).

Definition write_field (quote_cr : bool) (s : string) : string :=
  if any (special quote_cr) s then quoted s else s.

Fixpoint join (quote_cr : bool) (fields : list string) : string :=
  match fields with
  | [] => EmptyString
  | [f] => write_field quote_cr f
  | f :: fields' => write_field quote_cr f +:+ String comma (join quote_cr fields')
  end.

(** [writer.writerow(fields)] with [lineterminator='\n']: a record that
    would be empty although it has a field is written as a pair of quotes. *)
Definition writerow (quote_cr : bool) (fields : list string) : string :=
  let rec := join quote_cr fields in
  (if bool_decide (fields ≠ []) && bool_decide (rec = EmptyString)
   then quoted EmptyString else rec) +:+ String lf EmptyString.

Definition writerows (quote_cr : bool) (records : list (list string)) : string :=
  foldr (fun r out => writerow quote_cr r +:+ out) EmptyString records.

(** [filtered_df.to_csv(index=False)], line 96: the column names, then
    one record per row with a cell for every column.  [order] is
    [filtered_df.columns], the columns in the frame's order (a [frame]
    keeps them as a set); [repr] is how a cell prints (a missing cell
    prints as the empty text). *)
Definition column_order (filtered_df : frame) (order : list string) : Prop :=
  NoDup order ∧ list_to_set order = columns filtered_df.

#[global] Instance column_order_dec filtered_df order :
  Decision (column_order filtered_df order).
Proof. unfold column_order. apply _. Defined.

Definition record (repr : cell -> string) (order : list string) (r : doc) : list string :=
  (fun c => repr (Normalizer.cell_at r c)) <$> order.

Definition to_csv (quote_cr : bool) (repr : cell -> string) (order : list string)
    (filtered_df : frame) : string :=
  writerows quote_cr (order :: (record repr order <$> rows filtered_df)).

(** *** Reading the export back

    The reader is Python's [csv.reader] with the dialect of the writer
    (delimiter [,], quote character, doubled quotes, not strict), over the
    lines of a file opened with [newline=''], as the [csv] module asks. *)

(** Iterating over a text file opened with [newline='']: a line ends at
    [\n], at [\r] or at [\r\n], and keeps its ending.  [pendingcr] tells
    that the line read so far ends in a [\r] that may still be followed by
    its [\n]. *)
Fixpoint readlines (pendingcr : bool) (line : string) (text : string) : list string :=
  match text with
  | EmptyString => if bool_decide (line = EmptyString) then [] else [line]
  | String c text' =>
      if pendingcr && negb (bool_decide (c = lf)) then
        line :: readlines (bool_decide (c = cr)) (String c EmptyString) text'
      else if bool_decide (c = lf) then
        (line +:+ String c EmptyString) :: readlines false EmptyString text'
      else readlines (bool_decide (c = cr)) (line +:+ String c EmptyString) text'
  end.

(** The states of the parser, as [_csv.c] names them (without those of an
    escape character, which the dialect does not have). *)
Inductive pstate : Type :=
  | START_RECORD
  | START_FIELD
  | IN_FIELD
  | IN_QUOTED_FIELD
  | QUOTE_IN_QUOTED_FIELD
  | EAT_CRNL.

#[global] Instance pstate_eq_dec : EqDecision pstate.
Proof. solve_decision. Defined.

Record reader : Type := mkReader {
  state : pstate;
  field : string;                (* the field being read *)
  fields : list string           (* the fields of the record being read *)
}.

Definition parse_reset : reader := mkReader START_RECORD EmptyString [].

Definition enter (st : pstate) (r : reader) : reader :=
  mkReader st (field r) (fields r).

(** [parse_add_char]: a field may not grow beyond [csv.field_size_limit()]. *)
Definition parse_add_char (field_limit : nat) (c : ascii) (r : reader) : result reader :=
  if bool_decide (field_limit ≤ String.length (field r))%nat then Raise CsvError
  else Ok (mkReader (state r) (field r +:+ String c EmptyString) (fields r)).

Definition parse_save_field (r : reader) : reader :=
  mkReader (state r) EmptyString (fields r ++ [field r]).

Definition newline (c : ascii) : bool := bool_decide (c = lf) || bool_decide (c = cr).

(** The case [START_FIELD] of [parse_process_char], which [START_RECORD]
    falls through to.  [None] is the end of a line. *)
Definition start_field (field_limit : nat) (c : option ascii) (r : reader) : result reader :=
  match c with
  | None => Ok (enter START_RECORD (parse_save_field r))
  | Some c =>
      if newline c then Ok (enter EAT_CRNL (parse_save_field r))
      else if bool_decide (c = dquote) then Ok (enter IN_QUOTED_FIELD r)
      else if bool_decide (c = comma) then Ok (enter START_FIELD (parse_save_field r))
      else r' ← parse_add_char field_limit c r; Ok (enter IN_FIELD r')
  end.

Definition parse_process_char (field_limit : nat) (r : reader) (c : option ascii) :
    result reader :=
  match state r, c with
  | START_RECORD, None => Ok r
  | START_RECORD, Some c' =>
      if newline c' then Ok (enter EAT_CRNL r) else start_field field_limit c r
  | START_FIELD, _ => start_field field_limit c r
  | IN_FIELD, None => Ok (enter START_RECORD (parse_save_field r))
  | IN_FIELD, Some c' =>
      if newline c' then Ok (enter EAT_CRNL (parse_save_field r))
      else if bool_decide (c' = comma) then Ok (enter START_FIELD (parse_save_field r))
      else parse_add_char field_limit c' r
  | IN_QUOTED_FIELD, None => Ok r
  | IN_QUOTED_FIELD, Some c' =>
      if bool_decide (c' = dquote) then Ok (enter QUOTE_IN_QUOTED_FIELD r)
      else parse_add_char field_limit c' r
  | QUOTE_IN_QUOTED_FIELD, None => Ok (enter START_RECORD (parse_save_field r))
  | QUOTE_IN_QUOTED_FIELD, Some c' =>
      if bool_decide (c' = dquote) then
        r' ← parse_add_char field_limit c' r; Ok (enter IN_QUOTED_FIELD r')
      else if bool_decide (c' = comma) then Ok (enter START_FIELD (parse_save_field r))
      else if newline c' then Ok (enter EAT_CRNL (parse_save_field r))
      else r' ← parse_add_char field_limit c' r; Ok (enter IN_FIELD r')
  | EAT_CRNL, None => Ok (enter START_RECORD r)
  | EAT_CRNL, Some c' => if newline c' then Ok r else Raise CsvError
  end.

(** The characters of one line. *)
Fixpoint process_line (field_limit : nat) (r : reader) (line : string) : result reader :=
  match line with
  | EmptyString => Ok r
  | String c line' =>
      r' ← parse_process_char field_limit r (Some c); process_line field_limit r' line'
  end.

(** The end of a line: a record that is complete joins the records read
    and the parser starts afresh, a quoted field that is still open goes
    on with the next line. *)
Definition end_line (field_limit : nat) (records : list (list string)) (r : reader) :
    result (list (list string) * reader) :=
  r' ← parse_process_char field_limit r None;
  if bool_decide (state r' = START_RECORD) then Ok (records ++ [fields r'], parse_reset)
  else Ok (records, r').

(** The end of the input: a field under way closes the last record. *)
Definition end_input (records : list (list string)) (r : reader) : list (list string) :=
  if bool_decide (field r ≠ EmptyString) || bool_decide (state r = IN_QUOTED_FIELD)
  then records ++ [fields (parse_save_field r)]
  else records.

(** [list(csv.reader(lines))]: [Reader_iternext] until the lines run out. *)
Fixpoint iter_records (field_limit : nat) (records : list (list string)) (r : reader)
    (lines : list string) : result (list (list string)) :=
  match lines with
  | [] => Ok (end_input records r)
  | line :: lines' =>
      r' ← process_line field_limit r line;
      '(records', r'') ← end_line field_limit records r';
      iter_records field_limit records' r'' lines'
  end.

Definition read_csv (field_limit : nat) (text : string) : result (list (list string)) :=
  iter_records field_limit [] parse_reset (readlines false EmptyString text).

(** *** The reader, one character at a time

    The same reader without the detour through the list of lines: a
    cursor holds the parser after the characters of the line under way,
    and ends that line as soon as the text shows that it has ended. *)
Record cursor : Type := mkCursor {
  parser : reader;
  pendingcr : bool;              (* the line under way ends in [\r] *)
  midline : bool;                (* the line under way has characters *)
  records : list (list string)   (* the records read *)
}.

Definition step (field_limit : nat) (k : cursor) (c : ascii) : result cursor :=
  '(recs, r) ← (if pendingcr k && negb (bool_decide (c = lf))
                then end_line field_limit (records k) (parser k)
                else Ok (records k, parser k));
  r' ← parse_process_char field_limit r (Some c);
  if bool_decide (c = lf) then
    '(recs', r'') ← end_line field_limit recs r'; Ok (mkCursor r'' false false recs')
  else Ok (mkCursor r' (bool_decide (c = cr)) true recs).

Fixpoint feed (field_limit : nat) (k : cursor) (text : string) : result cursor :=
  match text with
  | EmptyString => Ok k
  | String c text' => k' ← step field_limit k c; feed field_limit k' text'
  end.

Definition finish (field_limit : nat) (k : cursor) : result (list (list string)) :=
  '(recs, r) ← (if midline k then end_line field_limit (records k) (parser k)
                else Ok (records k, parser k));
  Ok (end_input recs r).

(** A cursor between two fields. *)
Definition ready (k : cursor) : Prop :=
  (state (parser k) = START_RECORD ∨ state (parser k) = START_FIELD) ∧
  field (parser k) = EmptyString ∧ pendingcr k = false.

(** What [write_field] leaves the cursor with: the field read in full,
    and a state from which a delimiter or a line feed closes it. *)
Definition holds (f : string) (fs : list string) (rs : list (list string))
    (k : cursor) : Prop :=
  field (parser k) = f ∧ fields (parser k) = fs ∧ records k = rs ∧ pendingcr k = false ∧
  (state (parser k) = IN_FIELD ∨ state (parser k) = QUOTE_IN_QUOTED_FIELD ∨
   (state (parser k) = START_FIELD ∧ f = EmptyString)).

Definition fresh_cursor (rs : list (list string)) : cursor :=
  mkCursor parse_reset false false rs.

(** A text as the reader takes it back: short enough for the field size
    limit, and without a carriage return unless the writer quotes it. *)
Definition no_cr (s : string) : Prop := any (fun c => bool_decide (c = cr)) s = false.

Definition readable (quote_cr : bool) (field_limit : nat) (s : string) : Prop :=
  (String.length s ≤ field_limit)%nat ∧ (quote_cr = false → no_cr s).

#[global] Instance readable_dec quote_cr field_limit s :
  Decision (readable quote_cr field_limit s).
Proof. unfold readable, no_cr. apply _. Defined.

End Csv.

(** ** Sample tables *)

Definition sample_row {S : Type} (ts : Z) (dev src ty : string) (amount : S) : RowOf S :=
  mkRow ts dev "Firefox" src amount 3 120 ty "new" "books".

(** The three records of the specification's scenario. *)
Definition sample_table : list Row :=
  [ sample_row 0 "mobile" "search" "converted" 50;
    sample_row (2 * Filter.ns_per_day) "desktop" "ads" "bounced" 0;
    sample_row (5 * Filter.ns_per_day + 7) "mobile" "ads" "converted" 30 ].


(** Two sources with equal sales; [search] appears first. *)
Definition tie_table : list Row :=
  [ sample_row 0 "mobile" "search" "converted" 10;
    sample_row 0 "mobile" "ads" "converted" 10 ].

(** A frame of two flat columns, and a printing of its cells. *)
Definition sample_frame : frame :=
  Frame {[ "device"; "segment" ]}
    [ {[ "device" := CScalar (PStr "mobile"); "segment" := CScalar (PStr "new, loyal") ]};
      {[ "device" := CScalar (PStr "desktop") ]} ].

(** A frame of one column, whose one cell holds a carriage return
    between an [a] and a [b]. *)
Definition cr_frame : frame :=
  Frame {[ "note" ]}
    [ {[ "note" := CScalar (PStr (String "a" (String Csv.cr (String "b" EmptyString)))) ]} ].

(** The field size limit of the [csv] module as it is shipped. *)
Definition field_size_limit : nat := Z.to_nat 131072.

Definition sample_repr (x : cell) : string :=
  match x with
  | CScalar (PStr s) => s
  | _ => ""
  end.

(** ** The frame before the sidebar: load, convert, extract *)
Module Loader.

(** Lines 46-47: [df[c] = pd.to_datetime(df[c])].  [convert] is what
    [pd.to_datetime] makes of one cell. *)
Definition to_datetime (convert : cell -> result pyval) (c : string) (df : frame) : result frame :=
  col ← Normalizer.getitem df c;
  values ← traverse convert col;
  Ok (Normalizer.setitem df c values).

(** Lines 43-58. *)
Definition prepare (convert : cell -> result pyval) (sessions : list doc) : result frame :=
  df ← to_datetime convert "startTime" (Normalizer.from_records sessions);
  df ← to_datetime convert "lastActivity" df;
  Normalizer.extract_nested_fields df.

(** A conversion that keeps timestamps and raises on anything else. *)
Definition keep_timestamps (x : cell) : result pyval :=
  match x with
  | CScalar (PTime ns) => Ok (PTime ns)
  | _ => Raise AttributeError
  end.

End Loader.

(** A frame on which the block of lines 50-58 can run: the three
    sub-object columns exist and hold a mapping in every row. *)
Definition ready_frame (df : frame) : Prop :=
  ∀ src, src ∈ Normalizer.sub_objects →
    src ∈ columns df ∧ Forall (Normalizer.is_dict_at src) (rows df).

(** ** The sidebar's default choices *)
Module Sidebar.

(** [Series.unique()]: the distinct values in order of first appearance. *)
Fixpoint unique {K : Type} `{EqDecision K} (col : list K) : list K :=
  match col with
  | [] => []
  | x :: col' => x :: filter (fun y => y ≠ x) (unique col')
  end.

(** [Series.min()] and [Series.max()] of a timestamp column; [None] is
    the [NaT] of an empty column. *)
Definition series_min (col : list Z) : option Z :=
  match col with
  | [] => None
  | x :: col' => Some (foldr Z.min x col')
  end.

Definition series_max (col : list Z) : option Z :=
  match col with
  | [] => None
  | x :: col' => Some (foldr Z.max x col')
  end.

(** Lines 66-69: [value=(df['startTime'].min().date(), df['startTime'].max().date())]. *)
Definition default_date_range (df : list Row) : option (list Z) :=
  lo ← series_min (startTime <$> df);
  hi ← series_max (startTime <$> df);
  Some [Filter.date lo; Filter.date hi].

(** Lines 72-76 and 79-83: [default=df[...].unique()]. *)
Definition default_devices (df : list Row) : list string := unique (device <$> df).
Definition default_session_types (df : list Row) : list string := unique (session_type <$> df).

End Sidebar.

(** ** The counts behind the pie and bar charts *)
Module Charts.

(** [Series.value_counts()]: one entry per distinct value in order of
    first appearance, holding its number of occurrences, then sorted
    descending by that number. *)
Definition counts (col : list string) : list (string * Z) :=
  (fun v => (v, Metrics.len (filter (fun x => x = v) col))) <$> Sidebar.unique col.

Definition value_counts (argsort : list Z -> list nat) (col : list string) :
    result (list (string * Z)) :=
  Aggregates.sort_values_desc argsort (counts col).

(** Lines 133, 143 and 168. *)
Definition device_counts (argsort : list Z -> list nat) (filtered_df : list Row) :=
  value_counts argsort (device <$> filtered_df).
Definition type_counts (argsort : list Z -> list nat) (filtered_df : list Row) :=
  value_counts argsort (session_type <$> filtered_df).
Definition segment_counts (argsort : list Z -> list nat) (filtered_df : list Row) :=
  value_counts argsort (segment <$> filtered_df).

End Charts.

(** * Properties *)

(** ** Field normalizer *)
Section normalizer_facts.
Import Normalizer.

Lemma traverse_ok {A B : Type} (f : A -> result B) (g : A -> B) (l : list A) :
  Forall (fun x => f x = Ok (g x)) l → traverse f l = Ok (g <$> l).
Proof.
  induction 1 as [|x l Hx _ IH]; simpl; [done|].
  rewrite Hx. simpl. rewrite IH. done.
Qed.

Lemma zip_with_fmap_same {A B C : Type} (h : A -> B -> C) (g : A -> B) (l : list A) :
  zip_with h l (g <$> l) = (fun x => h x (g x)) <$> l.
Proof. induction l as [|x l IH]; csimpl; [done|]. by rewrite IH. Qed.

Lemma is_dict_at_lookup src r : is_dict_at src r ↔ ∃ m, r !! src = Some (CDict m).
Proof.
  unfold is_dict_at. destruct (r !! src) as [[]|]; split; try done; try (by intros [? ?]).
  eauto.
Qed.

Lemma extract_ok dst src key dflt df :
  src ∈ columns df →
  Forall (is_dict_at src) (rows df) →
  extract dst src key dflt df =
    Ok (Frame ({[dst]} ∪ columns df) (assign_nested dst src key dflt <$> rows df)).
Proof.
  intros Hcol Hrows. unfold extract, getitem.
  rewrite decide_True by done. simpl.
  rewrite (traverse_ok _ (fun x => match x with CDict m => default dflt (m !! key) | _ => dflt end)).
  - simpl. unfold setitem. f_equal. f_equal.
    rewrite <- list_fmap_compose, zip_with_fmap_same.
    apply list_fmap_ext. intros _ r _. unfold assign_nested, nested, cell_at. simpl.
    by destruct (r !! src).
  - apply Forall_fmap. eapply Forall_impl; [exact Hrows|].
    intros r [m Hm]%is_dict_at_lookup. unfold cell_at. simpl. by rewrite Hm.
Qed.

Lemma is_dict_at_assign dst src key dflt src' r :
  dst ≠ src' → is_dict_at src' r → is_dict_at src' (assign_nested dst src key dflt r).
Proof. intros Hne. unfold is_dict_at, assign_nested. by rewrite lookup_insert_ne. Qed.

Lemma src_column (sessions : list doc) (src : string) :
  sessions ≠ [] → Forall (is_dict_at src) sessions →
  src ∈ columns (from_records sessions).
Proof.
  intros Hne Hall. destruct sessions as [|d ds]; [done|].
  apply Forall_cons in Hall as [[m Hm]%is_dict_at_lookup _].
  unfold from_records. simpl. apply elem_of_union. left.
  apply elem_of_dom. eauto.
Qed.

Ltac dict_rows Hsrc :=
  match goal with
  | |- Forall (is_dict_at ?s) _ =>
      rewrite ?Forall_fmap; eapply Forall_impl; [apply (Hsrc s); set_solver|];
      intros ? ?; simpl; repeat (apply is_dict_at_assign; [done|]); assumption
  end.

(** With the sub-objects in place the block succeeds and maps every
    document to its [flatten]ed row. *)
Lemma extract_nested_fields_flatten (sessions : list doc) :
  sessions ≠ [] →
  Forall has_subobjects sessions →
  extract_nested_fields (from_records sessions) =
    Ok (Frame (derived_names ∪ columns (from_records sessions)) (flatten <$> sessions)).
Proof.
  intros Hne Hall.
  assert (Hsrc : ∀ src, src ∈ sub_objects → Forall (is_dict_at src) sessions).
  { intros src Hin. eapply Forall_impl; [exact Hall|]. intros d Hd.
    unfold has_subobjects in Hd. rewrite Forall_forall in Hd. by apply Hd. }
  assert (Hcol : ∀ src, src ∈ sub_objects → src ∈ columns (from_records sessions)).
  { intros src Hin. apply src_column; auto. }
  unfold sub_objects in *.
  pose proof (Hcol "deviceInfo" ltac:(set_solver)) as C1.
  pose proof (Hcol "sessionMetadata" ltac:(set_solver)) as C2.
  pose proof (Hcol "sessionTags" ltac:(set_solver)) as C3.
  unfold extract_nested_fields.
  set (df0 := from_records sessions) in *.
  assert (rows df0 = sessions) as Hrows by done.
  do 9 (rewrite extract_ok; simpl;
    [ | set_solver | rewrite ?Hrows; dict_rows Hsrc ]).
  rewrite ?Hrows. f_equal. f_equal.
  - unfold derived_names. simpl. apply set_eq. intros x. set_unfold. tauto.
  - rewrite <- !list_fmap_compose. done.
Qed.

Lemma flatten_other (d : doc) (c : string) :
  c ∉ derived_names → flatten d !! c = d !! c.
Proof.
  intros Hc. unfold flatten, assign_nested.
  unfold derived_names in Hc. simpl in Hc. set_unfold.
  rewrite !lookup_insert_ne by (intros <-; tauto). done.
Qed.

Lemma flatten_derived (d : doc) dst src key dflt :
  (dst, (src, key, dflt)) ∈ derived_fields →
  flatten d !! dst = Some (CScalar (nested d src key dflt)).
Proof.
  unfold derived_fields. intros Hin. set_unfold.
  unfold flatten.
  repeat (destruct Hin as [Hin|Hin];
    [ injection Hin as -> -> -> ->; unfold assign_nested at 1;
      rewrite ?lookup_insert_ne by done; rewrite ?lookup_insert_eq;
      unfold assign_nested;
      repeat (rewrite lookup_insert_ne by done); rewrite ?lookup_insert_eq;
      f_equal; f_equal; unfold nested; rewrite ?lookup_insert_ne by done; done | ]).
  done.
Qed.

(** C1, as amended: on a table whose documents all carry the three nested
    sub-objects, whatever nested keys are missing, the block succeeds, adds
    exactly the nine derived columns, leaves every other cell as it was,
    and gives each derived field the nested value when the key is present
    and the documented default when it is absent. *)
Theorem extract_nested_fields_defaults (sessions : list doc) :
  sessions ≠ [] →
  Forall has_subobjects sessions →
  ∃ df, extract_nested_fields (from_records sessions) = Ok df ∧
    columns df = derived_names ∪ columns (from_records sessions) ∧
    length (rows df) = length sessions ∧
    ∀ i d, sessions !! i = Some d →
      ∃ r, rows df !! i = Some r ∧
        (∀ c, c ∉ derived_names → r !! c = d !! c) ∧
        ∀ dst src key dflt, (dst, (src, key, dflt)) ∈ derived_fields →
          ∃ m, d !! src = Some (CDict m) ∧
               r !! dst = Some (CScalar (default dflt (m !! key))).
Proof.
  intros Hne Hall. eexists. split; [by apply extract_nested_fields_flatten|].
  simpl. split; [done|]. split; [by rewrite length_fmap|].
  intros i d Hd. exists (flatten d). split; [by rewrite list_lookup_fmap, Hd|].
  split; [intros c Hc; by apply flatten_other|].
  intros dst src key dflt Hin.
  assert (is_dict_at src d) as [m Hm]%is_dict_at_lookup.
  { rewrite Forall_forall in Hall. specialize (Hall d).
    unfold has_subobjects in Hall. rewrite Forall_forall in Hall. apply Hall.
    - apply list_elem_of_lookup. eauto.
    - unfold derived_fields, sub_objects in *. set_unfold.
      repeat (destruct Hin as [Hin|Hin]; [injection Hin as -> -> -> ->; tauto|]). done. }
  exists m. split; [done|].
  rewrite (flatten_derived d dst src key dflt Hin). unfold nested. by rewrite Hm.
Qed.

(** The theorem at a complete document and one without any nested key. *)
Lemma extract_nested_fields_defaults_on_sample :
  let sessions := [full_doc; bare_doc] in
  ∃ df, extract_nested_fields (from_records sessions) = Ok df ∧
    columns df = derived_names ∪ columns (from_records sessions) ∧
    length (rows df) = length sessions ∧
    ∀ i d, sessions !! i = Some d →
      ∃ r, rows df !! i = Some r ∧
        (∀ c, c ∉ derived_names → r !! c = d !! c) ∧
        ∀ dst src key dflt, (dst, (src, key, dflt)) ∈ derived_fields →
          ∃ m, d !! src = Some (CDict m) ∧
               r !! dst = Some (CScalar (default dflt (m !! key))).
Proof.
  apply (extract_nested_fields_defaults [full_doc; bare_doc]).
  - discriminate.
  - apply (bool_decide_unpack _). vm_compute. exact I.
Defined.

(** C1 as stated fails: one document that lacks the sub-object
    [deviceInfo], next to a complete one, makes the block raise.  The
    column exists, the document's cell in it is [NaN], and [NaN.get]
    raises. *)
Lemma missing_subobject_raises :
  extract_nested_fields (from_records [full_doc; no_device_info]) = Raise AttributeError.
Proof. vm_compute. reflexivity. Qed.

(** Alone in its table, the same document has no such column at all. *)
Lemma missing_subobject_column_raises :
  extract_nested_fields (from_records [no_device_info]) = Raise (KeyError "deviceInfo").
Proof. vm_compute. reflexivity. Qed.

(** The empty table has no column either. *)
Lemma empty_table_raises :
  extract_nested_fields (from_records []) = Raise (KeyError "deviceInfo").
Proof. vm_compute. reflexivity. Qed.

End normalizer_facts.

(** ** Filter engine *)
Section filter_facts.
Import Filter.

Lemma and_fmap {A : Type} (f g : A -> bool) (l : list A) :
  and_ (f <$> l) (g <$> l) = (fun x => f x && g x) <$> l.
Proof. unfold and_. induction l as [|x l IH]; csimpl; [done|]. by rewrite IH. Qed.

Lemma getitem_mask_filter {A : Type} (P : A -> Prop) `{!∀ x, Decision (P x)}
    (p : A -> bool) (df : list A) :
  (∀ x, p x = true ↔ P x) →
  getitem_mask df (p <$> df) = filter P df.
Proof.
  intros Hp. induction df as [|r df IH]; csimpl; [done|].
  destruct (p r) eqn:Hr.
  - rewrite filter_cons_True by (by apply Hp). by rewrite IH.
  - rewrite filter_cons_False; [done|]. intros HP%Hp. congruence.
Qed.

(** The mask of lines 87-90 selects the rows that pass the three
    predicates. *)
Lemma apply_filters_filter df d0 d1 rest devices session_types :
  apply_filters df (d0 :: d1 :: rest) devices session_types =
    Ok (filter (passes d0 d1 devices session_types) df).
Proof.
  unfold apply_filters. simpl. f_equal.
  unfold ge_date, le_date, isin.
  rewrite <- !list_fmap_compose, !and_fmap.
  apply getitem_mask_filter. intros r. unfold passes. simpl.
  rewrite !andb_true_iff, !bool_decide_eq_true. tauto.
Qed.

Lemma apply_filters_short df date_range devices session_types :
  (length date_range < 2)%nat →
  apply_filters df date_range devices session_types = Raise IndexError.
Proof.
  intros Hlen. unfold apply_filters.
  destruct date_range as [|d0 [|d1 rest]]; simpl in *; try done. lia.
Qed.

Lemma sublist_filter_max {A : Type} (P : A -> Prop) `{!∀ x, Decision (P x)} (l df : list A) :
  l `sublist_of` df → Forall P l → l `sublist_of` filter P df.
Proof.
  induction 1 as [|x l1 l2 _ IH|x l1 l2 _ IH]; intros Hall.
  - constructor.
  - apply Forall_cons in Hall as [Hx Hall].
    rewrite filter_cons_True by done. constructor. by apply IH.
  - rewrite filter_cons. destruct (decide (P x)); [constructor|]; by apply IH.
Qed.

(** C4: for a date range [(start_date, end_date)] the filter returns,
    without raising, exactly the subsequence of the rows that pass the three
    predicates: a subsequence of the table, holding precisely the passing
    rows, and containing every other subsequence of passing rows. *)
Theorem apply_filters_subsequence df start_date end_date devices session_types :
  ∃ out, apply_filters df [start_date; end_date] devices session_types = Ok out ∧
    out `sublist_of` df ∧
    (∀ r, r ∈ out ↔ r ∈ df ∧ passes start_date end_date devices session_types r) ∧
    (∀ l, l `sublist_of` df →
          Forall (passes start_date end_date devices session_types) l →
          l `sublist_of` out).
Proof.
  eexists. split; [apply apply_filters_filter|]. split; [apply sublist_filter|].
  split.
  - intros r. rewrite list_elem_of_filter. tauto.
  - intros l Hsub Hall. by apply sublist_filter_max.
Qed.

(** C5: a date range whose start lies after its end selects no row, and
    does not raise. *)
Theorem apply_filters_empty_range df start_date end_date devices session_types :
  end_date < start_date →
  apply_filters df [start_date; end_date] devices session_types = Ok [].
Proof.
  intros Hlt. rewrite apply_filters_filter. f_equal.
  induction df as [|r df IH]; [done|].
  rewrite filter_cons_False; [exact IH|].
  unfold passes. lia.
Qed.

(** C6: filtering the filtered table again, with the same choices, changes
    nothing (and raises exactly when the first pass raises). *)
Theorem apply_filters_idempotent df date_range devices session_types :
  (out ← apply_filters df date_range devices session_types;
   apply_filters out date_range devices session_types)
  = apply_filters df date_range devices session_types.
Proof.
  destruct date_range as [|d0 [|d1 rest]]; try done.
  rewrite apply_filters_filter. simpl. rewrite apply_filters_filter. f_equal.
  induction df as [|r df IH]; [done|].
  rewrite (filter_cons _ r df). destruct (decide _) as [Hr|Hr]; [|exact IH].
  rewrite filter_cons_True by done. by rewrite IH.
Qed.

End filter_facts.

(** The theorem at the sample table. *)
Lemma apply_filters_empty_range_on_sample :
  Filter.apply_filters sample_table [5; 2] ["mobile"] ["converted"] = Ok [].
Proof. apply apply_filters_empty_range. lia. Defined.

(** The scenario of the specification: three records, filtered to mobile
    and converted. *)
Example apply_filters_scenario :
  Filter.apply_filters sample_table [0; 9] ["mobile"] ["converted"] =
    Ok [ sample_row 0 "mobile" "search" "converted" 50;
         sample_row (5 * Filter.ns_per_day + 7) "mobile" "ads" "converted" 30 ].
Proof. vm_compute. reflexivity. Qed.

(** ** Metrics on the empty table *)

Lemma truediv_numpy_never_raises (a b : pynum) :
  Metrics.is_numpy a = true →
  Metrics.truediv a b = Ok (NpFloat64 (Metrics.fdiv (Metrics.to_float a) (Metrics.to_float b))).
Proof. intros Ha. unfold Metrics.truediv. by rewrite Ha. Qed.

(** X10: on any filtered table the metrics block runs to its end: none of
    its divisions raises, whatever the number of rows. *)
Lemma key_metrics_never_raises (filtered_df : list Row) :
  ∃ m, Metrics.key_metrics filtered_df = Ok m.
Proof.
  unfold Metrics.key_metrics, Metrics.rate.
  assert (∃ x, Metrics.truediv (Metrics.mean (duration <$> filtered_df)) (PyInt 60) = Ok x)
    as [x ->].
  { destruct filtered_df; eexists; vm_compute; reflexivity. }
  cbn [mbind result_bind].
  rewrite !truediv_numpy_never_raises by done. cbn [mbind result_bind]. eauto.
Qed.

(** C2: on the empty filtered table the row count is 0, every mean and
    every rate is the float [nan], and nothing raises: the rates divide a
    numpy scalar, and numpy's division by zero yields [nan], not
    [ZeroDivisionError]. *)
Theorem metrics_on_empty_table :
  Metrics.len (@nil Row) = 0 ∧
  (∀ field : Row -> Z, Metrics.mean (field <$> []) = PyFloat FNaN) ∧
  (∀ v, Metrics.rate v [] = Ok (NpFloat64 FNaN)) ∧
  Metrics.key_metrics [] =
    Ok (Metrics.mkMetrics 0 (NpInt64 0) (PyFloat FNaN) (NpFloat64 FNaN) (PyFloat FNaN)
          (NpFloat64 FNaN) (PyFloat FNaN) (NpFloat64 FNaN)).
Proof.
  split; [reflexivity|]. split; [intros field; reflexivity|].
  assert (Hrate : ∀ v, Metrics.rate v [] = Ok (NpFloat64 FNaN)).
  { intros v. unfold Metrics.rate. simpl. vm_compute. reflexivity. }
  split; [exact Hrate|].
  unfold Metrics.key_metrics. rewrite !Hrate. vm_compute. reflexivity.
Qed.

(** Between two Python ints the same division would have raised. *)
Example python_int_division_raises :
  Metrics.truediv (PyInt 0) (PyInt 0) = Raise ZeroDivisionError.
Proof. vm_compute. reflexivity. Qed.

(** ** Grouped aggregates *)
Section groupby_facts.
Import Aggregates.
Context {A K B : Type} `{EqDecision K}.
Context (le : K -> K -> Prop) `{!RelDecision le}.
Implicit Types (key : A -> K) (agg : list A -> B) (df : list A).

Lemma group_keys_Permutation (keys : list K) : group_keys le keys ≡ₚ remove_dups keys.
Proof. apply merge_sort_Permutation. Qed.

Lemma elem_of_group_keys (keys : list K) k : k ∈ group_keys le keys ↔ k ∈ keys.
Proof. rewrite group_keys_Permutation. apply elem_of_remove_dups. Qed.

Lemma NoDup_group_keys (keys : list K) : NoDup (group_keys le keys).
Proof. rewrite group_keys_Permutation. apply NoDup_remove_dups. Qed.

Lemma groupby_index key agg df :
  (groupby le key agg df).*1 = group_keys le (key <$> df).
Proof.
  unfold groupby. generalize (group_keys le (key <$> df)) as ks.
  induction ks as [|k ks IH]; csimpl; [done|]. by rewrite IH.
Qed.

Lemma groupby_values key agg df :
  (groupby le key agg df).*2 =
    (fun k => agg (filter (fun r => key r = k) df)) <$> group_keys le (key <$> df).
Proof.
  unfold groupby. generalize (group_keys le (key <$> df)) as ks.
  induction ks as [|k ks IH]; csimpl; [done|]. by rewrite IH.
Qed.

Lemma elem_of_groupby key agg df k v :
  (k, v) ∈ groupby le key agg df ↔
    (∃ r, r ∈ df ∧ key r = k) ∧ v = agg (filter (fun r => key r = k) df).
Proof.
  unfold groupby. rewrite list_elem_of_fmap. split.
  - intros (k' & Heq & Hin). injection Heq as -> ->.
    apply elem_of_group_keys, list_elem_of_fmap in Hin as (r & -> & Hr). eauto.
  - intros [(r & Hr & <-) ->]. exists (key r). split; [done|].
    apply elem_of_group_keys, list_elem_of_fmap. eauto.
Qed.
End groupby_facts.

Section sums.
Import Metrics.

Lemma sum_list_Z_Permutation l1 l2 : l1 ≡ₚ l2 → sum_list_Z l1 = sum_list_Z l2.
Proof. induction 1; simpl; lia. Qed.




Lemma sum_list_Z_cons x l : sum_list_Z (x :: l) = x + sum_list_Z l.
Proof. reflexivity. Qed.


(** Every row falls in exactly one group. *)
Lemma sum_over_groups {A K : Type} `{EqDecision K} (f : A -> Z) (key : A -> K)
    (ks : list K) (df : list A) :
  NoDup ks → (∀ r, r ∈ df → key r ∈ ks) →
  sum_list_Z ((fun k => sum_list_Z (f <$> filter (fun r => key r = k) df)) <$> ks)
  = sum_list_Z (f <$> df).
Proof.
  intros Hnd. induction df as [|r df IH]; intros Hin.
  - clear. induction ks as [|k ks IH]; [done|].
    rewrite fmap_cons, sum_list_Z_cons, IH. reflexivity.
  - rewrite (fmap_cons f), sum_list_Z_cons.
    rewrite <- IH by (intros r' Hr'; apply Hin; by right).
    assert (Hr : key r ∈ ks) by (apply Hin; by left).
    clear IH Hin. induction Hnd as [|k ks Hk Hnd IH]; [by apply elem_of_nil in Hr|].
    rewrite !fmap_cons, !sum_list_Z_cons, (filter_cons _ r df).
    destruct (decide (key r = k)) as [Heq|Hne].
    + rewrite fmap_cons, sum_list_Z_cons. subst k.
      assert (Hrest : ∀ l : list K, key r ∉ l →
        (fun k => sum_list_Z (f <$> filter (fun r' => key r' = k) (r :: df))) <$> l
        = (fun k => sum_list_Z (f <$> filter (fun r' => key r' = k) df)) <$> l).
      { intros l Hl. apply list_fmap_ext. intros _ k Hkl%list_elem_of_lookup_2.
        rewrite filter_cons_False; [done|]. intros <-. done. }
      rewrite Hrest by done. lia.
    + apply elem_of_cons in Hr as [Hr|Hr]; [done|].
      rewrite IH by done. lia.
Qed.
End sums.

(** ** numpy's insertion sort is an argsort *)
Section insertion_argsort_facts.
Import Aggregates.
Context (v : list Z).

Lemma shift_in_Permutation (vi : nat) (sorted : list nat) :
  shift_in v vi sorted ≡ₚ vi :: sorted.
Proof.
  induction sorted as [|k sorted IH]; [done|].
  cbn [shift_in]. case_bool_decide; [|done].
  rewrite IH. apply Permutation_swap.
Qed.

Lemma shift_in_sorted (vi : nat) (sorted : list nat) :
  StronglySorted (above v) sorted → StronglySorted (above v) (shift_in v vi sorted).
Proof.
  induction 1 as [|k sorted Hs IH Hk]; cbn [shift_in].
  - repeat constructor.
  - case_bool_decide as Hlt.
    + constructor; [exact IH|].
      rewrite shift_in_Permutation. constructor; [unfold above; lia|done].
    + constructor; [by constructor|].
      constructor; [unfold above; lia|].
      eapply Forall_impl; [exact Hk|]. unfold above. intros; lia.
Qed.

Lemma foldl_shift_in (l acc : list nat) :
  StronglySorted (above v) acc →
  StronglySorted (above v) (foldl (fun sorted vi => shift_in v vi sorted) acc l) ∧
  foldl (fun sorted vi => shift_in v vi sorted) acc l ≡ₚ l ++ acc.
Proof.
  revert acc. induction l as [|i l IH]; intros acc Hacc; [done|].
  cbn [foldl]. destruct (IH (shift_in v i acc)) as [Hs Hp]; [by apply shift_in_sorted|].
  split; [done|]. rewrite Hp, shift_in_Permutation. symmetry. apply Permutation_middle.
Qed.

Lemma insertion_argsort_is_argsort : is_argsort v (insertion_argsort v).
Proof.
  unfold insertion_argsort.
  destruct (foldl_shift_in (seq 0 (length v)) []) as [Hs Hp]; [constructor|].
  rewrite app_nil_r in Hp.
  set (acc := foldl _ _ _) in *. split.
  - by rewrite reverse_Permutation.
  - assert (Hin : Forall (fun i => (i < length v)%nat) (reverse acc)).
    { apply Forall_forall. intros i Hi. rewrite elem_of_reverse, Hp in Hi.
      apply elem_of_seq in Hi. lia. }
    assert (Hval : omap (fun i => v !! i) (reverse acc) = val_at v <$> reverse acc).
    { induction Hin as [|i l Hi _ IH]; [done|].
      destruct (lookup_lt_is_Some_2 v i Hi) as [x Hx].
      cbn [omap list_omap]. rewrite fmap_cons, Hx, IH. unfold val_at. by rewrite Hx. }
    rewrite Hval. apply (Sorted_fmap _ (flip (above v))); [done|].
    apply Sorted_reverse, StronglySorted_Sorted, Hs.
Qed.
End insertion_argsort_facts.

Section sort_values_facts.
Import Aggregates.

Lemma take_idx_omap {A : Type} (values : list A) (ix : list nat) :
  Forall (fun i => (i < length values)%nat) ix →
  take_idx values ix = Ok (omap (fun i => values !! i) ix).
Proof.
  unfold take_idx. induction 1 as [|i ix Hi _ IH]; [done|].
  destruct (lookup_lt_is_Some_2 values i Hi) as [x Hx].
  assert (index values i = Ok x) as Hix by (unfold index; by rewrite Hx).
  cbn [traverse omap list_omap]. rewrite Hix, Hx. cbn [mbind result_bind].
  by rewrite IH.
Qed.

Lemma omap_lookup_seq {A : Type} (l : list A) :
  omap (fun i => l !! i) (seq 0 (length l)) = l.
Proof.
  induction l as [|x l IH]; [done|].
  cbn [length seq omap list_omap lookup list_lookup]. f_equal.
  rewrite <- fmap_S_seq.
  rewrite <- IH at 2. generalize (seq 0 (length l)) as ix.
  induction ix as [|i ix IHix]; [done|].
  rewrite fmap_cons. cbn [omap list_omap]. rewrite IHix. done.
Qed.

Lemma omap_reverse {A B : Type} (f : A -> option B) (l : list A) :
  omap f (reverse l) = reverse (omap f l).
Proof.
  induction l as [|x l IH]; [done|].
  rewrite reverse_cons, omap_app, IH. cbn [omap list_omap].
  destruct (f x); by rewrite ?reverse_cons, ?app_nil_r.
Qed.

Lemma argsort_in_range (n : nat) (ix : list nat) :
  ix ≡ₚ seq 0 n → Forall (fun i => (i < n)%nat) ix.
Proof.
  intros Hp. apply Forall_forall. intros i Hi. rewrite Hp in Hi.
  apply elem_of_seq in Hi. lia.
Qed.

(** [sort_values(ascending=False)], given that [argsort] returned an
    argsort of what it was handed: the result is the Series reversed,
    picked in argsort order, reversed again. *)
Lemma sort_values_desc_eq {K : Type} (argsort : list Z -> list nat) (s : list (K * Z)) :
  is_argsort (reverse s.*2) (argsort (reverse s.*2)) →
  sort_values_desc argsort s =
    Ok (reverse (omap (fun i => reverse s !! i) (argsort (reverse s.*2)))).
Proof.
  intros [Hperm _]. set (ix := argsort (reverse s.*2)) in *.
  rewrite length_reverse, length_fmap in Hperm.
  assert (Hrange : Forall (fun i => (i < length s)%nat) ix).
  { by apply argsort_in_range. }
  unfold sort_values_desc, nargsort_desc. fold ix. rewrite length_fmap.
  rewrite take_idx_omap by (by rewrite length_reverse, length_seq).
  cbn [mbind result_bind].
  set (n := length s) in *.
  assert (Hidx : omap (fun i => reverse (seq 0 n) !! i) ix
                 = (fun i => (n - S i)%nat) <$> ix).
  { clear Hperm. induction Hrange as [|i ix' Hi _ IH]; [done|].
    cbn [omap list_omap]. rewrite reverse_lookup by (by rewrite length_seq).
    rewrite length_seq, lookup_seq_lt by lia. rewrite fmap_cons, IH. done. }
  rewrite Hidx.
  rewrite take_idx_omap.
  2:{ apply Forall_forall. intros j Hj. rewrite elem_of_reverse in Hj.
      apply list_elem_of_fmap in Hj as (i & -> & Hi).
      rewrite Forall_forall in Hrange. specialize (Hrange i Hi). lia. }
  f_equal. rewrite omap_reverse. f_equal.
  clear Hidx Hperm. induction Hrange as [|i ix' Hi _ IH]; [done|].
  rewrite fmap_cons. cbn [omap list_omap].
  rewrite (reverse_lookup s i) by done. fold n. rewrite IH. done.
Qed.

Lemma sort_values_desc_spec {K : Type} (argsort : list Z -> list nat) (s : list (K * Z)) :
  is_argsort (reverse s.*2) (argsort (reverse s.*2)) →
  ∃ out, sort_values_desc argsort s = Ok out ∧ sorted_desc out ∧ out ≡ₚ s.
Proof.
  intros Harg. eexists. split; [by apply sort_values_desc_eq|].
  destruct Harg as [Hperm Hsorted]. set (ix := argsort (reverse s.*2)) in *.
  split.
  - unfold sorted_desc.
    assert (Hval : omap (fun i => reverse s.*2 !! i) ix
                   = snd <$> omap (fun i => reverse s !! i) ix).
    { rewrite list_fmap_omap. apply list_omap_ext, Forall_Forall2_diag.
      apply Forall_forall. intros i _. by rewrite <- fmap_reverse, list_lookup_fmap. }
    rewrite Hval in Hsorted.
    apply Sorted_reverse in Hsorted. rewrite <- fmap_reverse in Hsorted.
    revert Hsorted. generalize (reverse (omap (fun i => reverse s !! i) ix)) as out.
    induction out as [|a out IH]; [constructor|].
    rewrite fmap_cons. inversion 1 as [|? ? Hs Hhd]; subst.
    constructor; [by apply IH|].
    destruct out as [|b out]; [constructor|].
    rewrite fmap_cons in Hhd. inversion Hhd; subst. constructor. done.
  - rewrite reverse_Permutation, Hperm.
    rewrite length_reverse, length_fmap, <- (length_reverse s).
    rewrite omap_lookup_seq. apply reverse_Permutation.
Qed.
End sort_values_facts.

Section aggregates_facts.
Import Aggregates.

Lemma StronglySorted_le_lt (l : list Z) :
  StronglySorted Z.le l → NoDup l → StronglySorted Z.lt l.
Proof.
  induction 1 as [|x l _ IH Hall]; intros Hnd; [constructor|].
  apply NoDup_cons in Hnd as [Hx Hnd]. constructor; [by apply IH|].
  rewrite Forall_forall in Hall |- *. intros y Hy.
  specialize (Hall y Hy). assert (x ≠ y) by (intros ->; done). lia.
Qed.

(** C7: the daily series lists the calendar dates of the table in
    strictly ascending order, each once, each with the number of rows of
    that date; a date without a session has no entry. *)
Theorem sessions_by_date_ascending (filtered_df : list Row) :
  StronglySorted Z.lt (sessions_by_date filtered_df).*1 ∧
  (∀ d n, (d, n) ∈ sessions_by_date filtered_df ↔
     (∃ r, r ∈ filtered_df ∧ Filter.date (startTime r) = d) ∧
     n = Z.of_nat (length (filter (fun r => Filter.date (startTime r) = d) filtered_df))) ∧
  (∀ d n, (d, n) ∈ sessions_by_date filtered_df → 0 < n).
Proof.
  unfold sessions_by_date. split; [|split].
  - rewrite groupby_index. apply StronglySorted_le_lt.
    + apply (StronglySorted_merge_sort Z.le).
    + apply NoDup_group_keys.
  - intros d n. rewrite elem_of_groupby. reflexivity.
  - intros d n [(r & Hr & Hd) ->]%elem_of_groupby.
    assert (r ∈ filter (fun r => Filter.date (startTime r) = d) filtered_df) as Hin
      by (by apply list_elem_of_filter).
    unfold Metrics.len.
    destruct (filter _ filtered_df); [by apply elem_of_nil in Hin|]. simpl. lia.
Qed.


(** C3, as amended: whenever numpy's argsort returns an argsort the
    grouped sums come out sorted descending by value, one entry per
    distinct label with that label's total.  Nothing is said of the
    order among equal sums. *)
Theorem group_sum_sorted_desc (argsort : list Z -> list nat)
    (field : Row -> string) (measure : Row -> Z) (filtered_df : list Row) :
  let sums := (groupby String.le field (group_total measure) filtered_df).*2 in
  is_argsort (reverse sums) (argsort (reverse sums)) →
  ∃ out, group_sum argsort field measure filtered_df = Ok out ∧
    sorted_desc out ∧
    NoDup out.*1 ∧
    ∀ k v, (k, v) ∈ out ↔
      (∃ r, r ∈ filtered_df ∧ field r = k) ∧
      v = group_total measure (filter (fun r => field r = k) filtered_df).
Proof.
  intros sums Harg.
  destruct (sort_values_desc_spec argsort _ Harg) as (out & Hout & Hsorted & Hperm).
  exists out. split; [exact Hout|]. split; [exact Hsorted|]. split.
  - rewrite Hperm, groupby_index. apply NoDup_group_keys.
  - intros k v. rewrite Hperm. apply elem_of_groupby.
Qed.


End aggregates_facts.

(** ** CSV export *)
Section csv_facts.
Import Csv.
Context (field_limit : nat).

Lemma append_cons (c : ascii) (s1 s2 : string) :
  String c s1 +:+ s2 = String c (s1 +:+ s2).
Proof. reflexivity. Qed.

Lemma append_nil_l (s : string) : EmptyString +:+ s = s.
Proof. reflexivity. Qed.

Lemma append_assoc (s1 s2 s3 : string) : (s1 +:+ s2) +:+ s3 = s1 +:+ (s2 +:+ s3).
Proof. induction s1 as [|c s1 IH]; [done|]. rewrite !append_cons. by rewrite IH. Qed.

Lemma append_nil_r (s : string) : s +:+ EmptyString = s.
Proof. induction s as [|c s IH]; [done|]. rewrite append_cons. by rewrite IH. Qed.

Lemma length_append (s1 s2 : string) :
  String.length (s1 +:+ s2) = (String.length s1 + String.length s2)%nat.
Proof. induction s1 as [|c s1 IH]; [done|]. rewrite append_cons. cbn [String.length]. by rewrite IH. Qed.

Lemma append_not_nil (s : string) (c : ascii) : s +:+ String c EmptyString ≠ EmptyString.
Proof. by destruct s. Qed.

(** *** The two readers agree *)

Lemma process_line_app (r : reader) (s1 s2 : string) :
  process_line field_limit r (s1 +:+ s2)
  = (r' ← process_line field_limit r s1; process_line field_limit r' s2).
Proof.
  revert r. induction s1 as [|c s1 IH]; intros r; [done|].
  rewrite append_cons. cbn [process_line].
  destruct (parse_process_char field_limit r (Some c)) as [r'|e]; cbn [mbind result_bind]; [|done].
  apply IH.
Qed.

(** Once the parser has failed within a line, reading fails. *)
Lemma iter_records_raise (text : string) recs r pend line e :
  process_line field_limit r line = Raise e →
  iter_records field_limit recs r (readlines pend line text) = Raise e.
Proof.
  revert pend line. induction text as [|c text IH]; intros pend line Hline; cbn [readlines].
  - case_bool_decide as Hl; [by subst line|].
    cbn [iter_records]. by rewrite Hline.
  - destruct (pend && negb (bool_decide (c = lf))).
    + cbn [iter_records]. by rewrite Hline.
    + case_bool_decide.
      * cbn [iter_records]. by rewrite process_line_app, Hline.
      * apply IH. by rewrite process_line_app, Hline.
Qed.

(** Reading line by line is reading character by character. *)
Lemma iter_records_feed (text : string) recs r pend line p :
  process_line field_limit r line = Ok p →
  iter_records field_limit recs r (readlines pend line text)
  = (k ← feed field_limit (mkCursor p pend (bool_decide (line ≠ EmptyString)) recs) text;
     finish field_limit k).
Proof.
  revert recs r pend line p.
  induction text as [|c text IH]; intros recs r pend line p Hline; cbn [readlines feed].
  - cbn [mbind result_bind]. unfold finish. cbn [midline records parser].
    case_bool_decide as Hl.
    + subst line. injection Hline as <-.
      rewrite bool_decide_eq_false_2 by (by intros []). done.
    + rewrite bool_decide_eq_true_2 by done.
      cbn [iter_records]. rewrite Hline. cbn [mbind result_bind].
      destruct (end_line field_limit recs p) as [[recs' r']|e]; done.
  - unfold step at 1. cbn [pendingcr records parser].
    destruct (pend && negb (bool_decide (c = lf))) eqn:Hpend.
    + assert (c ≠ lf) as Hc.
      { apply andb_true_iff in Hpend as [_ Hc]. apply negb_true_iff in Hc.
        by apply bool_decide_eq_false in Hc. }
      cbn [iter_records]. rewrite Hline. cbn [mbind result_bind].
      destruct (end_line field_limit recs p) as [[recs' r']|e]; cbn [mbind result_bind]; [|done].
      destruct (parse_process_char field_limit r' (Some c)) as [p'|e] eqn:Hp';
        cbn [mbind result_bind].
      * rewrite (bool_decide_eq_false_2 (c = lf)) by done. cbn [mbind result_bind].
        rewrite (IH recs' r' _ _ p'); [|by cbn [process_line]; rewrite Hp'].
        by rewrite (bool_decide_eq_true_2 (String c EmptyString ≠ EmptyString)) by done.
      * apply iter_records_raise. cbn [process_line]. by rewrite Hp'.
    + case_bool_decide as Hc.
      * cbn [iter_records]. rewrite process_line_app, Hline. cbn [mbind result_bind process_line].
        destruct (parse_process_char field_limit p (Some c)) as [p'|e];
          cbn [mbind result_bind]; [|done].
        destruct (end_line field_limit recs p') as [[recs' r']|e]; cbn [mbind result_bind]; [|done].
        rewrite (IH recs' r' _ _ r'); [|done].
        by rewrite (bool_decide_eq_false_2 (EmptyString ≠ EmptyString)) by (by intros []).
      * cbn [mbind result_bind].
        destruct (parse_process_char field_limit p (Some c)) as [p'|e] eqn:Hp';
          cbn [mbind result_bind].
        -- rewrite (IH recs r _ _ p').
           ++ rewrite (bool_decide_eq_true_2 (line +:+ String c EmptyString ≠ EmptyString))
                by apply append_not_nil.
              destruct pend; [by cbn in Hpend|done].
           ++ rewrite process_line_app, Hline. cbn [mbind result_bind process_line].
              by rewrite Hp'.
        -- apply iter_records_raise.
           rewrite process_line_app, Hline. cbn [mbind result_bind process_line].
           by rewrite Hp'.
Qed.

Lemma read_csv_feed (text : string) :
  read_csv field_limit text
  = (k ← feed field_limit (fresh_cursor []) text; finish field_limit k).
Proof.
  unfold read_csv. rewrite (iter_records_feed text [] parse_reset false EmptyString parse_reset) by done.
  by rewrite bool_decide_eq_false_2 by (by intros []).
Qed.
(** *** What is written is read back *)

Lemma feed_app (k : cursor) (s1 s2 : string) :
  feed field_limit k (s1 +:+ s2)
  = (k' ← feed field_limit k s1; feed field_limit k' s2).
Proof.
  revert k. induction s1 as [|c s1 IH]; intros k; [done|].
  rewrite append_cons. cbn [feed].
  destruct (step field_limit k c) as [k'|e]; cbn [mbind result_bind]; [apply IH|done].
Qed.

Lemma special_false c :
  special true c = false → c ≠ comma ∧ c ≠ dquote ∧ c ≠ lf ∧ c ≠ cr.
Proof.
  unfold special. cbn [andb]. rewrite !orb_false_iff, !bool_decide_eq_false. tauto.
Qed.

(** A text that is written without quotes and can be read back holds
    none of the four characters the reader treats specially. *)
Lemma plain_readable quote_cr (s : string) :
  any (special quote_cr) s = false → (quote_cr = false → no_cr s) →
  any (special true) s = false.
Proof.
  destruct quote_cr; [done|]. intros Hs Hcr. specialize (Hcr eq_refl). unfold no_cr in Hcr.
  induction s as [|c s IH]; [done|]. cbn [any] in *.
  apply orb_false_iff in Hs as [Hc Hs]. apply orb_false_iff in Hcr as [Hc' Hcr].
  rewrite IH by done. unfold special in *. cbn [andb] in *.
  rewrite Hc'. by rewrite !orb_false_r in *.
Qed.

Ltac decide_it :=
  first [ done | by compute | cbn [String.length] in *; lia ].

Ltac decide_one :=
  match goal with
  | |- context [bool_decide ?P] =>
      first [ rewrite (bool_decide_eq_true_2 P) by decide_it
            | rewrite (bool_decide_eq_false_2 P) by decide_it ]
  end.

Ltac run_step :=
  unfold step, end_line, parse_process_char, start_field, parse_add_char, newline,
    enter, parse_save_field;
  repeat (cbn [state field fields parser pendingcr midline records andb orb negb
               mbind result_bind];
          decide_one);
  cbn [state field fields parser pendingcr midline records andb orb negb
       mbind result_bind].

(** Inside an unquoted field, plain characters accumulate. *)
Lemma feed_plain (s f : string) (fs : list string) (rs : list (list string)) :
  any (special true) s = false →
  (String.length f + String.length s ≤ field_limit)%nat →
  feed field_limit (mkCursor (mkReader IN_FIELD f fs) false true rs) s
  = Ok (mkCursor (mkReader IN_FIELD (f +:+ s) fs) false true rs).
Proof.
  revert f. induction s as [|c s IH]; intros f Hs Hlen; cbn [feed].
  - by rewrite append_nil_r.
  - cbn [any] in Hs. apply orb_false_iff in Hs as [(Hc & Hq & Hl & Hr)%special_false Hs].
    run_step. rewrite IH; [by rewrite append_assoc|done|].
    rewrite length_append. cbn [String.length] in *. lia.
Qed.

(** Inside a quoted field, the escaped text reads back as the text,
    line breaks included. *)
Lemma feed_escaped (s f : string) (fs : list string) (rs : list (list string)) (b m : bool) :
  (String.length f + String.length s ≤ field_limit)%nat →
  ∃ b' m', feed field_limit (mkCursor (mkReader IN_QUOTED_FIELD f fs) b m rs) (escape s)
           = Ok (mkCursor (mkReader IN_QUOTED_FIELD (f +:+ s) fs) b' m' rs).
Proof.
  revert f b m. induction s as [|c s IH]; intros f b m Hlen.
  - exists b, m. cbn [escape feed]. by rewrite append_nil_r.
  - assert (String.length (f +:+ String c EmptyString) + String.length s ≤ field_limit)%nat
      as Hlen' by (rewrite length_append; cbn [String.length] in *; lia).
    cbn [escape]. destruct (decide (c = dquote)) as [->|Hq].
    + rewrite bool_decide_eq_true_2 by done. cbn [feed].
      destruct (IH (f +:+ String dquote EmptyString) false true Hlen') as (b' & m' & Hfeed).
      exists b', m'. rewrite append_assoc in Hfeed.
      destruct b; run_step; run_step; exact Hfeed.
    + rewrite bool_decide_eq_false_2 by done. cbn [feed].
      destruct (decide (c = lf)) as [->|Hl].
      * destruct (IH (f +:+ String lf EmptyString) false false Hlen') as (b' & m' & Hfeed).
        exists b', m'. rewrite append_assoc in Hfeed.
        destruct b; run_step; exact Hfeed.
      * destruct (IH (f +:+ String c EmptyString) (bool_decide (c = cr)) true Hlen')
          as (b' & m' & Hfeed).
        exists b', m'. rewrite append_assoc in Hfeed.
        destruct b; run_step; exact Hfeed.
Qed.

(** A quoted field, up to and including its closing quote. *)
Lemma feed_quoted (s : string) (k : cursor) :
  ready k → (String.length s ≤ field_limit)%nat →
  feed field_limit k (quoted s)
  = Ok (mkCursor (mkReader QUOTE_IN_QUOTED_FIELD s (fields (parser k))) false true (records k)).
Proof.
  destruct k as [[st f fs] b m rs]. intros (Hst & Hf & Hb) Hlen. simpl in *. subst f b.
  unfold quoted. cbn [feed].
  assert (step field_limit (mkCursor (mkReader st EmptyString fs) false m rs) dquote
          = Ok (mkCursor (mkReader IN_QUOTED_FIELD EmptyString fs) false true rs)) as ->.
  { destruct Hst as [-> | ->]; by run_step. }
  cbn [mbind result_bind]. rewrite feed_app.
  destruct (feed_escaped s EmptyString fs rs false true) as (b' & m' & ->); [done|].
  cbn [mbind result_bind feed]. rewrite append_nil_l.
  destruct b'; by run_step.
Qed.

(** An unquoted, non-empty field. *)
Lemma feed_unquoted (c : ascii) (s : string) (k : cursor) :
  any (special true) (String c s) = false → ready k →
  (String.length (String c s) ≤ field_limit)%nat →
  feed field_limit k (String c s)
  = Ok (mkCursor (mkReader IN_FIELD (String c s) (fields (parser k))) false true (records k)).
Proof.
  destruct k as [[st f fs] b m rs]. intros Hs (Hst & Hf & Hb) Hlen. simpl in *. subst f b.
  apply orb_false_iff in Hs as [(Hc & Hq & Hl & Hr)%special_false Hs].
  assert (step field_limit (mkCursor (mkReader st EmptyString fs) false m rs) c
          = Ok (mkCursor (mkReader IN_FIELD (String c EmptyString) fs) false true rs)) as ->.
  { destruct Hst as [-> | ->]; by run_step. }
  cbn [mbind result_bind]. rewrite feed_plain; [done|done|].
  cbn [String.length] in *. lia.
Qed.

Lemma holds_comma f fs rs k :
  holds f fs rs k →
  step field_limit k comma
  = Ok (mkCursor (mkReader START_FIELD EmptyString (fs ++ [f])) false true rs).
Proof.
  destruct k as [[st f' fs'] b m rs']. intros (Hf & Hfs & Hrs & Hb & Hst). simpl in *. subst.
  destruct Hst as [-> | [-> | [-> ->]]]; by run_step.
Qed.

Lemma holds_lf f fs rs k :
  holds f fs rs k → step field_limit k lf = Ok (fresh_cursor (rs ++ [fs ++ [f]])).
Proof.
  destruct k as [[st f' fs'] b m rs']. intros (Hf & Hfs & Hrs & Hb & Hst). simpl in *. subst.
  destruct Hst as [-> | [-> | [-> ->]]]; by run_step.
Qed.

(** After a delimiter, any written field is read back. *)
Lemma feed_write_field quote_cr (f : string) (k : cursor) :
  state (parser k) = START_FIELD → field (parser k) = EmptyString → pendingcr k = false →
  readable quote_cr field_limit f →
  ∃ k', feed field_limit k (write_field quote_cr f) = Ok k' ∧
        holds f (fields (parser k)) (records k) k'.
Proof.
  intros Hst Hf Hb [Hlen Hcr]. unfold write_field.
  destruct (any (special quote_cr) f) eqn:Hs.
  - eexists. split; [apply feed_quoted; [by repeat split; auto|done]|].
    repeat split; auto.
  - destruct f as [|c s].
    + exists k. split; [done|]. repeat split; auto.
    + eexists. split.
      * apply feed_unquoted; [by eapply plain_readable|by repeat split; auto|done].
      * repeat split; auto.
Qed.

(** At the start of a record the same holds of a field that is written
    as a non-empty text. *)
Lemma feed_write_field_first quote_cr (f : string) (k : cursor) :
  state (parser k) = START_RECORD → field (parser k) = EmptyString → pendingcr k = false →
  readable quote_cr field_limit f →
  write_field quote_cr f ≠ EmptyString →
  ∃ k', feed field_limit k (write_field quote_cr f) = Ok k' ∧
        holds f (fields (parser k)) (records k) k'.
Proof.
  intros Hst Hf Hb [Hlen Hcr]. unfold write_field.
  destruct (any (special quote_cr) f) eqn:Hs; intros Hne.
  - eexists. split; [apply feed_quoted; [by repeat split; auto|done]|].
    repeat split; auto.
  - destruct f as [|c s]; [done|].
    eexists. split.
    + apply feed_unquoted; [by eapply plain_readable|by repeat split; auto|done].
    + repeat split; auto.
Qed.

Lemma write_field_empty quote_cr f : write_field quote_cr f = EmptyString → f = EmptyString.
Proof. unfold write_field. by destruct (any _ f). Qed.

Lemma join_cons quote_cr (f f' : string) (fs : list string) :
  join quote_cr (f :: f' :: fs)
  = write_field quote_cr f +:+ String comma (join quote_cr (f' :: fs)).
Proof. reflexivity. Qed.

(** The fields after the first, up to the end of the record. *)
Lemma feed_join quote_cr (fs : list string) (rest : string) (k : cursor) :
  fs ≠ [] →
  state (parser k) = START_FIELD → field (parser k) = EmptyString → pendingcr k = false →
  Forall (readable quote_cr field_limit) fs →
  feed field_limit k (join quote_cr fs +:+ String lf rest)
  = feed field_limit (fresh_cursor (records k ++ [fields (parser k) ++ fs])) rest.
Proof.
  revert k. induction fs as [|f fs IH]; intros k Hne Hst Hf Hb Hfs; [done|].
  apply Forall_cons in Hfs as [Hrd Hfs].
  destruct (feed_write_field quote_cr f k Hst Hf Hb Hrd) as (k' & Hk' & Hholds).
  destruct fs as [|f' fs].
  - cbn [join]. rewrite feed_app, Hk'. cbn [mbind result_bind feed].
    by rewrite (holds_lf f (fields (parser k)) (records k)).
  - rewrite join_cons, append_assoc, feed_app, Hk'. cbn [mbind result_bind].
    rewrite append_cons. cbn [feed].
    rewrite (holds_comma f (fields (parser k)) (records k)) by done.
    cbn [mbind result_bind].
    rewrite IH by done. cbn [fields parser records]. by rewrite <- app_assoc.
Qed.

(** One written record is read back as one record. *)
Lemma feed_writerow quote_cr (fs : list string) (rest : string) (rs : list (list string)) :
  Forall (readable quote_cr field_limit) fs →
  feed field_limit (fresh_cursor rs) (writerow quote_cr fs +:+ rest)
  = feed field_limit (fresh_cursor (rs ++ [fs])) rest.
Proof.
  intros Hfs. unfold writerow. rewrite append_assoc, append_cons, append_nil_l.
  destruct fs as [|f fs].
  - cbn [join bool_decide andb]. rewrite append_nil_l. cbn [feed].
    assert (step field_limit (fresh_cursor rs) lf = Ok (fresh_cursor (rs ++ [[]]))) as ->
      by by run_step.
    done.
  - apply Forall_cons in Hfs as [Hrd Hfs].
    rewrite (bool_decide_eq_true_2 (f :: fs ≠ [])) by done. cbn [andb].
    destruct fs as [|f' fs].
    + cbn [join]. destruct (decide (write_field quote_cr f = EmptyString)) as [He|Hne].
      * rewrite bool_decide_eq_true_2 by done.
        apply write_field_empty in He as ->.
        rewrite feed_app, feed_quoted by (repeat split; cbn; first [lia | auto]).
        cbn [mbind result_bind feed].
        by rewrite (holds_lf EmptyString [] rs) by (repeat split; auto).
      * rewrite bool_decide_eq_false_2 by done.
        destruct (feed_write_field_first quote_cr f (fresh_cursor rs)) as (k' & Hk' & Hholds);
          [done..|].
        rewrite feed_app, Hk'. cbn [mbind result_bind feed].
        by rewrite (holds_lf f [] rs).
    + assert (join quote_cr (f :: f' :: fs) ≠ EmptyString) as Hne.
      { rewrite join_cons. by destruct (write_field quote_cr f). }
      rewrite bool_decide_eq_false_2 by done.
      rewrite join_cons, append_assoc, feed_app, append_cons.
      destruct (decide (write_field quote_cr f = EmptyString)) as [He|Hne'].
      * rewrite He. apply write_field_empty in He as ->. cbn [feed mbind result_bind].
        assert (step field_limit (fresh_cursor rs) comma
                = Ok (mkCursor (mkReader START_FIELD EmptyString [EmptyString]) false true rs))
          as -> by by run_step.
        cbn [mbind result_bind]. by rewrite feed_join.
      * destruct (feed_write_field_first quote_cr f (fresh_cursor rs)) as (k' & Hk' & Hholds);
          [done..|].
        rewrite Hk'. cbn [mbind result_bind feed].
        rewrite (holds_comma f [] rs) by done. cbn [mbind result_bind].
        by rewrite feed_join.
Qed.

Lemma feed_writerows quote_cr (recs rs : list (list string)) :
  Forall (Forall (readable quote_cr field_limit)) recs →
  feed field_limit (fresh_cursor rs) (writerows quote_cr recs) = Ok (fresh_cursor (rs ++ recs)).
Proof.
  revert rs. induction recs as [|fs recs IH]; intros rs Hrecs.
  - by rewrite app_nil_r.
  - apply Forall_cons in Hrecs as [Hfs Hrecs].
    cbn [writerows foldr]. rewrite feed_writerow by done.
    fold (writerows quote_cr recs). rewrite IH by done. by rewrite <- app_assoc.
Qed.

Lemma read_csv_writerows quote_cr (recs : list (list string)) :
  Forall (Forall (readable quote_cr field_limit)) recs →
  read_csv field_limit (writerows quote_cr recs) = Ok recs.
Proof.
  intros Hrecs. rewrite read_csv_feed, feed_writerows by done. reflexivity.
Qed.

(** The export determines the table's texts: two tables with the same
    export have the same header and the same records. *)
Corollary writerows_inj quote_cr (records1 records2 : list (list string)) :
  Forall (Forall (readable quote_cr field_limit)) records1 →
  Forall (Forall (readable quote_cr field_limit)) records2 →
  writerows quote_cr records1 = writerows quote_cr records2 → records1 = records2.
Proof.
  intros H1 H2 Heq.
  pose proof (read_csv_writerows quote_cr records1 H1) as Hr1.
  rewrite Heq, (read_csv_writerows quote_cr records2 H2) in Hr1. congruence.
Qed.

End csv_facts.

(** ** Grouped sums on the sample tables *)

(** The theorems at the sample table, sorted by numpy's insertion sort. *)
Lemma group_sum_sorted_desc_on_sample :
  ∃ out, Aggregates.group_sum Aggregates.insertion_argsort source sales sample_table = Ok out ∧
    Aggregates.sorted_desc out ∧
    NoDup out.*1 ∧
    ∀ k v, (k, v) ∈ out ↔
      (∃ r, r ∈ sample_table ∧ source r = k) ∧
      v = Aggregates.group_total sales (filter (fun r => source r = k) sample_table).
Proof.
  apply (group_sum_sorted_desc Aggregates.insertion_argsort source sales sample_table).
  apply (bool_decide_unpack _). vm_compute. exact I.
Defined.


(** On the sample table the sources sum to 50 and 30, which add up to
    the 80 of the whole table. *)
Example sales_by_source_sample_table :
  Aggregates.sales_by_source Aggregates.insertion_argsort sample_table
    = Ok [("search", 50); ("ads", 30)] ∧
  Metrics.sum (sales <$> sample_table) = NpInt64 80.
Proof. split; vm_compute; reflexivity. Qed.



(** With numpy's sort for short arrays the hypothesis always holds. *)
Corollary group_sum_insertion_sorted (field : Row -> string) (measure : Row -> Z)
    (filtered_df : list Row) :
  ∃ out, Aggregates.group_sum Aggregates.insertion_argsort field measure filtered_df = Ok out ∧
    Aggregates.sorted_desc out ∧ out ≡ₚ Aggregates.groupby String.le field
                                          (Aggregates.group_total measure) filtered_df.
Proof. apply sort_values_desc_spec, insertion_argsort_is_argsort. Qed.

(** Two sources with equal sales; [groupby] lists them as [ads],
    [search], whatever the order of the rows. *)
Lemma groupby_tie_table :
  Aggregates.groupby String.le source (Aggregates.group_total sales) tie_table
    = [("ads", 10); ("search", 10)] ∧
  Aggregates.groupby String.le source (Aggregates.group_total sales) (reverse tie_table)
    = [("ads", 10); ("search", 10)].
Proof. split; vm_compute; reflexivity. Qed.

(** An order of the two entries cannot follow the order of first
    appearance both in the table and in the table with its rows swapped. *)
Lemma ties_cannot_follow_both_orders (out : list (string * Z)) :
  out ≡ₚ [("ads", 10); ("search", 10)] →
  ¬ (Aggregates.ties_by_first_appearance (source <$> tie_table) out ∧
     Aggregates.ties_by_first_appearance (source <$> reverse tie_table) out).
Proof.
  intros Hperm [H1 H2].
  assert (length out = 2%nat) as Hlen by (by rewrite Hperm).
  destruct out as [|a [|b [|c out]]]; try done.
  assert (a ∈ [("ads", 10); ("search", 10)]) as Ha by (rewrite <- Hperm; apply elem_of_cons; by left).
  assert (b ∈ [("ads", 10); ("search", 10)]) as Hb by (rewrite <- Hperm; apply elem_of_cons; right; apply elem_of_cons; by left).
  specialize (H1 0%nat 1%nat a b ltac:(lia) eq_refl eq_refl).
  specialize (H2 0%nat 1%nat a b ltac:(lia) eq_refl eq_refl).
  apply elem_of_cons in Ha as [->|Ha]; [|apply list_elem_of_singleton in Ha as ->];
  (apply elem_of_cons in Hb as [->|Hb]; [|apply list_elem_of_singleton in Hb as ->]);
    vm_compute in H1, H2;
    try (specialize (H1 eq_refl)); try (specialize (H2 eq_refl)); lia.
Qed.

(** C3 as stated fails on the order of ties.  [groupby] has put the labels
    in ascending order before the sort sees them, so the sort is handed the
    same Series for [tie_table] and for [tie_table] with its two rows
    swapped: no argsort, however it treats ties, makes the output follow
    the order of first appearance for both tables. *)
Lemma ties_not_by_first_appearance :
  ¬ ∃ argsort : list Z -> list nat,
      Aggregates.is_argsort [10; 10] (argsort [10; 10]) ∧
      ∀ filtered_df, filtered_df ∈ [tie_table; reverse tie_table] →
        ∃ out, Aggregates.sales_by_source argsort filtered_df = Ok out ∧
          Aggregates.ties_by_first_appearance (source <$> filtered_df) out.
Proof.
  intros (argsort & Harg & Hties).
  destruct groupby_tie_table as [Hg1 Hg2].
  destruct (Hties tie_table) as (out1 & Hout1 & Hties1); [apply elem_of_cons; by left|].
  destruct (Hties (reverse tie_table)) as (out2 & Hout2 & Hties2);
    [apply elem_of_cons; right; apply elem_of_cons; by left|].
  unfold Aggregates.sales_by_source, Aggregates.group_sum in Hout1, Hout2.
  rewrite Hg1 in Hout1. rewrite Hg2 in Hout2.
  destruct (sort_values_desc_spec argsort [("ads", 10); ("search", 10)] Harg)
    as (out & Hout & _ & Hperm).
  assert (out1 = out) as -> by congruence.
  assert (out2 = out) as -> by congruence.
  by apply (ties_cannot_follow_both_orders out Hperm).
Qed.

(** With numpy's insertion sort the two sources come out as [ads],
    [search], although [search] appears first in the table. *)
Example sales_by_source_tie_table :
  Aggregates.sales_by_source Aggregates.insertion_argsort tie_table
    = Ok [("ads", 10); ("search", 10)] ∧
  ¬ Aggregates.ties_by_first_appearance (source <$> tie_table) [("ads", 10); ("search", 10)].
Proof.
  split; [vm_compute; reflexivity|].
  intros Hties.
  specialize (Hties 0%nat 1%nat ("ads", 10) ("search", 10)).
  vm_compute in Hties. specialize (Hties ltac:(lia) eq_refl eq_refl eq_refl). lia.
Qed.

(** ** The export of a sample frame *)
Example to_csv_sample :
  Csv.to_csv false sample_repr ["device"; "segment"] sample_frame
  = "device,segment" +:+ String Csv.lf
      ("mobile," +:+ String Csv.dquote "new, loyal" +:+ String Csv.dquote (String Csv.lf
      ("desktop," +:+ String Csv.lf ""))).
Proof. vm_compute. reflexivity. Qed.



(** A writer that quotes carriage returns writes the cell in quotes, and
    the row comes back as it was. *)
Example carriage_return_quoted :
  Csv.read_csv field_size_limit (Csv.to_csv true sample_repr ["note"] cr_frame)
    = Ok (["note"] :: (Csv.record sample_repr ["note"] <$> rows cr_frame)).
Proof. vm_compute. reflexivity. Qed.

(** ** From documents to typed rows *)
Example typed_row_of_flattened :
  typed_row (Normalizer.flatten Normalizer.full_doc)
  = Some (mkRow 0 "mobile" "Firefox" "ads" 50 4 120 "converted" "new" "books").
Proof. vm_compute. reflexivity. Qed.

(** A document without nested keys gets every default. *)
(** In a table with fractional sales an integer amount is stored as the
    [float64] of the same value. *)
Example typed_float_row_of_flattened :
  typed_float_row (Normalizer.flatten Normalizer.full_doc)
  = Some (mkRow 0 "mobile" "Firefox" "ads" 50%float 4 120 "converted" "new" "books").
Proof. vm_compute. reflexivity. Qed.

Example typed_row_of_bare :
  typed_row (Normalizer.flatten Normalizer.bare_doc)
  = Some (mkRow 0 "Unknown" "Unknown" "Unknown" 0 0 0 "Unknown" "Unknown" "Unknown").
Proof. vm_compute. reflexivity. Qed.

(** * Further properties *)

(** ** When the normalizer succeeds *)
Section normalizer_success.
Import Normalizer.

Lemma traverse_Ok_inv {A B : Type} (f : A -> result B) (l : list A) (ys : list B) :
  traverse f l = Ok ys → Forall (fun x => ∃ y, f x = Ok y) l.
Proof.
  revert ys. induction l as [|x l IH]; intros ys Hok; [constructor|].
  cbn [traverse] in Hok. destruct (f x) as [y|e1] eqn:Hx; [|discriminate].
  cbn [mbind result_bind] in Hok.
  destruct (traverse f l) as [ys'|e2] eqn:Hl; [|discriminate].
  constructor; [eauto|]. by eapply IH.
Qed.

(** One assignment of the block succeeds exactly when the column of the
    sub-object exists and every cell in it is a mapping. *)
Lemma extract_Ok_inv dst src key dflt df df' :
  extract dst src key dflt df = Ok df' →
  src ∈ columns df ∧ Forall (is_dict_at src) (rows df) ∧
  df' = Frame ({[dst]} ∪ columns df) (assign_nested dst src key dflt <$> rows df).
Proof.
  intros Hok.
  assert (src ∈ columns df ∧ Forall (is_dict_at src) (rows df)) as [Hcol Hrows].
  { unfold extract, getitem in Hok. destruct (decide (src ∈ columns df)); [|discriminate].
    split; [done|]. cbn [mbind result_bind] in Hok.
    destruct (traverse _ _) as [vs|e1] eqn:Htr; [|discriminate].
    apply traverse_Ok_inv in Htr. rewrite Forall_fmap in Htr.
    eapply Forall_impl; [exact Htr|]. intros r [y Hy]. simpl in Hy.
    unfold is_dict_at, cell_at, get in *. by destruct (r !! src) as [[]|]. }
  split; [done|]. split; [done|].
  rewrite extract_ok in Hok by done. congruence.
Qed.

Lemma is_dict_at_assign_inv dst src key dflt src' r :
  dst ≠ src' → is_dict_at src' (assign_nested dst src key dflt r) → is_dict_at src' r.
Proof. intros Hne. unfold is_dict_at, assign_nested. by rewrite lookup_insert_ne. Qed.

Ltac invert_extract H :=
  match type of H with
  | context [extract ?dst ?src ?key ?dflt ?df] =>
      let E := fresh "E" in
      destruct (extract dst src key dflt df) as [?|?] eqn:E; [|discriminate H];
      apply extract_Ok_inv in E as (? & ? & ->);
      cbn [mbind result_bind] in H
  end.

Ltac strip_assign :=
  repeat match goal with
  | H : Forall _ (_ <$> _) |- _ => rewrite Forall_fmap in H
  end.

(** If the block succeeds, it ran on a ready frame. *)
Lemma extract_nested_fields_Ok_ready df df' :
  extract_nested_fields df = Ok df' → ready_frame df.
Proof.
  intros Hok. unfold extract_nested_fields in Hok.
  do 8 invert_extract Hok. apply extract_Ok_inv in Hok as (? & ? & ->).
  cbn [columns rows] in *. strip_assign.
  assert (∀ src dst s k dv (r : doc), src ∈ sub_objects → dst ∉ sub_objects →
            is_dict_at src (assign_nested dst s k dv r) → is_dict_at src r) as Hinv.
  { intros src dst s k dv r Hsrc Hdst. apply is_dict_at_assign_inv. intros ->. by apply Hdst. }
  assert (∀ dst, dst ∈ derived_names → dst ∉ sub_objects) as Hdst.
  { intros dst Hd Hs. unfold derived_names, sub_objects in *. simpl in Hd.
    rewrite !elem_of_union, !elem_of_singleton in Hd.
    rewrite !elem_of_cons in Hs. destruct Hs as [->|[->|[->|Hs]]];
      [| | |by apply elem_of_nil in Hs]; clear -Hd; repeat destruct Hd as [Hd|Hd];
      try discriminate; by apply elem_of_empty in Hd. }
  intros src Hsrc.
  assert (∀ (X : gset string) dst, dst ∈ derived_names → src ∈ {[dst]} ∪ X → src ∈ X) as Hcol.
  { intros X dst Hd [->%elem_of_singleton|Hin]%elem_of_union; [|done].
    by apply Hdst in Hd. }
  assert (∀ dst, dst ∈ (fst <$> derived_fields) → dst ∈ derived_names) as Hnames.
  { intros dst Hd. unfold derived_names. by apply elem_of_list_to_set. }
  unfold sub_objects in Hsrc. rewrite !elem_of_cons in Hsrc.
  destruct Hsrc as [->|[->|[->|Hsrc]]]; [| | |by apply elem_of_nil in Hsrc].
  - split; done.
  - split.
    + repeat match goal with
        | H : "sessionMetadata" ∈ {[_]} ∪ _ |- _ =>
            apply Hcol in H; [|apply Hnames; simpl; rewrite !elem_of_cons; tauto]
        end. done.
    + match goal with H : Forall _ (rows df) |- _ =>
        eapply Forall_impl; [exact H|];
        intros r Hr; simpl in Hr;
        repeat (apply Hinv in Hr;
          [|unfold sub_objects; rewrite !elem_of_cons; tauto
           |apply Hdst, Hnames; simpl; rewrite !elem_of_cons; tauto]); exact Hr
      end.
  - split.
    + repeat match goal with
        | H : "sessionTags" ∈ {[_]} ∪ _ |- _ =>
            apply Hcol in H; [|apply Hnames; simpl; rewrite !elem_of_cons; tauto]
        end. done.
    + match goal with H : Forall _ (rows df) |- _ =>
        eapply Forall_impl; [exact H|];
        intros r Hr; simpl in Hr;
        repeat (apply Hinv in Hr;
          [|unfold sub_objects; rewrite !elem_of_cons; tauto
           |apply Hdst, Hnames; simpl; rewrite !elem_of_cons; tauto]); exact Hr
      end.
Qed.

Lemma derived_not_sub_object dst : dst ∈ derived_names → dst ∉ sub_objects.
Proof.
  intros Hd Hs. unfold derived_names, sub_objects in *. simpl in Hd.
  rewrite !elem_of_union, !elem_of_singleton in Hd.
  rewrite !elem_of_cons in Hs. destruct Hs as [->|[->|[->|Hs]]];
    [| | |by apply elem_of_nil in Hs]; clear -Hd; repeat destruct Hd as [Hd|Hd];
    try discriminate; by apply elem_of_empty in Hd.
Qed.

Lemma derived_field_names dst src key dflt :
  (dst, (src, key, dflt)) ∈ derived_fields → dst ∈ derived_names ∧ src ∈ sub_objects.
Proof.
  intros Hin. unfold derived_fields in Hin. rewrite !elem_of_cons in Hin.
  unfold derived_names, sub_objects.
  repeat (destruct Hin as [Hin|Hin];
    [injection Hin as -> -> -> ->; split;
       [apply elem_of_list_to_set; simpl; rewrite !elem_of_cons; tauto
       |rewrite !elem_of_cons; tauto]|]).
  by apply elem_of_nil in Hin.
Qed.

Lemma derived_name_field dst :
  dst ∈ derived_names → ∃ src key dflt, (dst, (src, key, dflt)) ∈ derived_fields.
Proof.
  unfold derived_names. rewrite elem_of_list_to_set, list_elem_of_fmap.
  intros ([dst' [[src key] dflt]] & -> & Hin). eauto.
Qed.

(** On a ready frame the block succeeds and flattens every row. *)
Lemma extract_nested_fields_ready df :
  ready_frame df →
  extract_nested_fields df = Ok (Frame (derived_names ∪ columns df) (flatten <$> rows df)).
Proof.
  intros Hready. unfold extract_nested_fields.
  assert (Hkeep : ∀ src dst s k dv (l : list doc), src ∈ sub_objects → dst ∈ derived_names →
            Forall (is_dict_at src) l →
            Forall (is_dict_at src) (assign_nested dst s k dv <$> l)).
  { intros src dst s k dv l Hsrc Hdst Hl. rewrite Forall_fmap.
    eapply Forall_impl; [exact Hl|]. intros r Hr. simpl.
    apply is_dict_at_assign; [|done]. intros ->. by apply derived_not_sub_object in Hdst. }
  assert (Hname : ∀ dst, dst ∈ (fst <$> derived_fields) → dst ∈ derived_names).
  { intros dst Hd. by apply elem_of_list_to_set. }
  do 9 (rewrite extract_ok; cbn [mbind result_bind columns rows];
    [ | repeat (apply elem_of_union; right); apply Hready;
        unfold sub_objects; rewrite !elem_of_cons; tauto
      | repeat (apply Hkeep;
          [unfold sub_objects; rewrite !elem_of_cons; tauto
          |apply Hname; simpl; rewrite !elem_of_cons; tauto|]);
        apply Hready; unfold sub_objects; rewrite !elem_of_cons; tauto ]).
  f_equal. f_equal.
  - unfold derived_names. simpl. apply set_eq. intros c.
    rewrite !elem_of_union, !elem_of_singleton. rewrite elem_of_empty. tauto.
  - rewrite <- !list_fmap_compose. done.
Qed.

Lemma nested_flatten (d : doc) src key dflt :
  src ∈ sub_objects → nested (flatten d) src key dflt = nested d src key dflt.
Proof.
  intros Hsrc. unfold nested. rewrite flatten_other; [done|].
  intros Hd. by apply derived_not_sub_object in Hd.
Qed.

Lemma flatten_idempotent (d : doc) : flatten (flatten d) = flatten d.
Proof.
  apply map_eq. intros c. destruct (decide (c ∈ derived_names)) as [Hc|Hc].
  - destruct (derived_name_field c Hc) as (src & key & dflt & Hin).
    rewrite !(flatten_derived _ c src key dflt Hin).
    rewrite nested_flatten; [done|]. by apply derived_field_names in Hin as [_ ?].
  - by rewrite flatten_other.
Qed.

Lemma ready_frame_from_records (sessions : list doc) :
  ready_frame (from_records sessions) ↔ sessions ≠ [] ∧ Forall has_subobjects sessions.
Proof.
  unfold ready_frame, has_subobjects. cbn [rows]. split.
  - intros Hready. split.
    + intros ->. destruct (Hready "deviceInfo") as [Hcol _].
      { unfold sub_objects. apply elem_of_cons. by left. }
      cbn in Hcol. by apply elem_of_empty in Hcol.
    + apply Forall_forall. intros d Hd. apply Forall_forall. intros src Hsrc.
      destruct (Hready src Hsrc) as [_ Hrows]. rewrite Forall_forall in Hrows. by apply Hrows.
  - intros [Hne Hall] src Hsrc.
    assert (Forall (is_dict_at src) sessions) as Hrows.
    { eapply Forall_impl; [exact Hall|]. intros d Hd. rewrite Forall_forall in Hd. by apply Hd. }
    split; [by apply src_column|done].
Qed.

(** X1: the block succeeds exactly on a non-empty table whose documents
    all carry the three sub-objects as mappings. *)
Theorem extract_nested_fields_succeeds_iff (sessions : list doc) :
  (∃ df, extract_nested_fields (from_records sessions) = Ok df) ↔
  sessions ≠ [] ∧ Forall has_subobjects sessions.
Proof.
  rewrite <- ready_frame_from_records. split.
  - intros [df Hok]. by eapply extract_nested_fields_Ok_ready.
  - intros Hready. eexists. by apply extract_nested_fields_ready.
Qed.

(** X2: running the block on its own output changes nothing (and a run
    that raises has no output to run on). *)
Theorem extract_nested_fields_idempotent (df : frame) :
  (df' ← extract_nested_fields df; extract_nested_fields df') = extract_nested_fields df.
Proof.
  destruct (extract_nested_fields df) as [df'|e] eqn:Hok; [|done].
  cbn [mbind result_bind].
  pose proof (extract_nested_fields_Ok_ready _ _ Hok) as Hready.
  rewrite extract_nested_fields_ready in Hok by done. injection Hok as <-.
  rewrite extract_nested_fields_ready.
  - cbn [columns rows]. f_equal. f_equal.
    + apply set_eq. intros c. rewrite !elem_of_union. tauto.
    + rewrite <- list_fmap_compose. apply list_fmap_ext. intros _ d _. apply flatten_idempotent.
  - intros src Hsrc. destruct (Hready src Hsrc) as [Hcol Hrows]. cbn [columns rows]. split.
    + apply elem_of_union. by right.
    + rewrite Forall_fmap. eapply Forall_impl; [exact Hrows|]. intros r Hr. simpl.
      unfold flatten. repeat (apply is_dict_at_assign;
        [intros <-; unfold sub_objects in Hsrc; rewrite !elem_of_cons in Hsrc;
         destruct Hsrc as [?|[?|[?|?%elem_of_nil]]]; done|]). done.
Qed.
End normalizer_success.

(** ** Loading and converting, lines 43-58 *)
Section loader_facts.
Import Normalizer Loader.

Lemma traverse_length {A B : Type} (f : A -> result B) (l : list A) (ys : list B) :
  traverse f l = Ok ys → length ys = length l.
Proof.
  revert ys. induction l as [|x l IH]; intros ys Hok.
  - injection Hok as <-. done.
  - cbn [traverse] in Hok. destruct (f x) as [y|e1]; [|discriminate].
    cbn [mbind result_bind] in Hok.
    destruct (traverse f l) as [ys'|e2]; [|discriminate].
    injection Hok as <-. cbn [length]. f_equal. by apply IH.
Qed.

Lemma to_datetime_Ok_inv convert c df df' :
  to_datetime convert c df = Ok df' →
  c ∈ columns df ∧ ∃ values, length values = length (rows df) ∧ df' = setitem df c values.
Proof.
  unfold to_datetime, getitem. destruct (decide (c ∈ columns df)); [|discriminate].
  cbn [mbind result_bind]. destruct (traverse convert _) as [values|e1] eqn:Htr; [|discriminate].
  intros [= <-]. split; [done|]. exists values. split; [|done].
  apply traverse_length in Htr. by rewrite length_fmap in Htr.
Qed.

Lemma setitem_is_dict_at c src (l : list doc) (values : list pyval) :
  c ≠ src → length values = length l →
  Forall (is_dict_at src) (zip_with (fun r v => <[c := CScalar v]> r) l values) ↔
  Forall (is_dict_at src) l.
Proof.
  intros Hne. revert values. induction l as [|r l IH]; intros [|v values] Hlen;
    try discriminate; [done|].
  cbn [zip_with]. rewrite !Forall_cons, IH by (simpl in Hlen; lia).
  unfold is_dict_at at 1 3. by rewrite lookup_insert_ne.
Qed.

Lemma no_column (sessions : list doc) (c : string) :
  Forall (fun d => d !! c = None) sessions → c ∉ columns (from_records sessions).
Proof.
  intros Hall. cbn [columns from_records]. rewrite elem_of_union_list.
  intros (X & HX & Hc). apply list_elem_of_fmap in HX as (d & -> & Hd).
  rewrite Forall_forall in Hall. apply elem_of_dom in Hc as [x Hx].
  rewrite (Hall d Hd) in Hx. discriminate.
Qed.

(** X3: a collection none of whose documents has a [startTime], the empty
    collection among them, stops the script at line 46 with
    [KeyError('startTime')], whatever the conversion does. *)
Theorem prepare_without_startTime (convert : cell -> result pyval) (sessions : list doc) :
  Forall (fun d => d !! "startTime" = None) sessions →
  prepare convert sessions = Raise (KeyError "startTime").
Proof.
  intros Hall. unfold prepare, to_datetime, getitem.
  rewrite decide_False by (by apply no_column). done.
Qed.

(** X4: when lines 43-58 run to their end, the collection was not empty,
    every document carried the three sub-objects as mappings, and the
    frame holds one row per document and the nine derived columns beside
    the documents' own. *)
Theorem prepare_Ok (convert : cell -> result pyval) (sessions : list doc) (df : frame) :
  prepare convert sessions = Ok df →
  sessions ≠ [] ∧ Forall has_subobjects sessions ∧
  length (rows df) = length sessions ∧
  columns df = derived_names ∪ columns (from_records sessions).
Proof.
  unfold prepare. intros Hok.
  destruct (to_datetime convert "startTime" _) as [df1|e1] eqn:H1; [|discriminate].
  cbn [mbind result_bind] in Hok.
  destruct (to_datetime convert "lastActivity" df1) as [df2|e2] eqn:H2; [|discriminate].
  cbn [mbind result_bind] in Hok.
  apply to_datetime_Ok_inv in H1 as (Hc1 & v1 & Hl1 & ->).
  apply to_datetime_Ok_inv in H2 as (Hc2 & v2 & Hl2 & ->).
  cbn [rows columns setitem from_records] in *.
  pose proof (extract_nested_fields_Ok_ready _ _ Hok) as Hready.
  rewrite extract_nested_fields_ready in Hok by done. injection Hok as <-.
  cbn [rows columns setitem].
  assert (length (zip_with (fun (r : doc) v => <["startTime" := CScalar v]> r) sessions v1)
          = length sessions) as Hz1 by (rewrite length_zip_with; lia).
  assert (ready_frame (from_records sessions)) as Hready0.
  { intros src Hsrc. destruct (Hready src Hsrc) as [Hcol Hrows].
    assert ("lastActivity" ≠ src ∧ "startTime" ≠ src) as [Hn1 Hn2].
    { unfold sub_objects in Hsrc. rewrite !elem_of_cons in Hsrc.
      destruct Hsrc as [->|[->|[->|?%elem_of_nil]]]; done. }
    cbn [rows columns setitem from_records] in *. split.
    - apply elem_of_union in Hcol as [?%elem_of_singleton|Hcol]; [done|].
      apply elem_of_union in Hcol as [?%elem_of_singleton|Hcol]; done.
    - apply setitem_is_dict_at in Hrows; [|done|lia].
      by apply setitem_is_dict_at in Hrows. }
  apply ready_frame_from_records in Hready0 as [Hne Hall].
  split; [done|]. split; [done|]. split.
  - rewrite length_fmap, length_zip_with. lia.
  - apply set_eq. intros c. rewrite !elem_of_union, !elem_of_singleton.
    split; [|tauto]. intros [?|[->|[->|?]]]; [by left| |by right|by right].
    right. apply elem_of_union in Hc2 as [?%elem_of_singleton|?]; done.
Qed.
End loader_facts.

(** The empty collection. *)
Lemma prepare_without_startTime_on_empty :
  Loader.prepare Loader.keep_timestamps [] = Raise (KeyError "startTime").
Proof. apply (prepare_without_startTime Loader.keep_timestamps []). constructor. Defined.

Lemma prepare_Ok_on_sample :
  ∃ df, Loader.prepare Loader.keep_timestamps [Normalizer.full_doc; Normalizer.bare_doc] = Ok df ∧
    [Normalizer.full_doc; Normalizer.bare_doc] ≠ [] ∧
    Forall Normalizer.has_subobjects [Normalizer.full_doc; Normalizer.bare_doc] ∧
    length (rows df) = 2%nat ∧
    columns df = Normalizer.derived_names
                 ∪ columns (Normalizer.from_records [Normalizer.full_doc; Normalizer.bare_doc]).
Proof.
  eexists. split; [vm_compute; reflexivity|].
  apply (prepare_Ok Loader.keep_timestamps [Normalizer.full_doc; Normalizer.bare_doc]).
  vm_compute. reflexivity.
Defined.

(** ** The sidebar and the filter, lines 62-91 *)
Section sidebar_facts.
Import Filter Sidebar.

Lemma elem_of_unique {K : Type} `{EqDecision K} (col : list K) (x : K) :
  x ∈ unique col ↔ x ∈ col.
Proof.
  induction col as [|y col IH]; [done|].
  cbn [unique]. rewrite !elem_of_cons, list_elem_of_filter, IH.
  destruct (decide (x = y)); tauto.
Qed.

Lemma NoDup_unique {K : Type} `{EqDecision K} (col : list K) : NoDup (unique col).
Proof.
  induction col as [|y col IH]; [constructor|].
  cbn [unique]. constructor.
  - rewrite list_elem_of_filter. intros [Hne _]. done.
  - by apply NoDup_filter.
Qed.

Lemma foldr_min_le (x : Z) (l : list Z) (y : Z) :
  y ∈ x :: l → foldr Z.min x l ≤ y.
Proof.
  induction l as [|z l IH]; cbn [foldr].
  - intros ->%list_elem_of_singleton. lia.
  - rewrite !elem_of_cons. intros [->|[->|Hy]].
    + etrans; [apply Z.le_min_r|]. apply IH. by left.
    + apply Z.le_min_l.
    + etrans; [apply Z.le_min_r|]. apply IH. by right.
Qed.

Lemma foldr_max_ge (x : Z) (l : list Z) (y : Z) :
  y ∈ x :: l → y ≤ foldr Z.max x l.
Proof.
  induction l as [|z l IH]; cbn [foldr].
  - intros ->%list_elem_of_singleton. lia.
  - rewrite !elem_of_cons. intros [->|[->|Hy]].
    + etrans; [|apply Z.le_max_r]. apply IH. by left.
    + apply Z.le_max_l.
    + etrans; [|apply Z.le_max_r]. apply IH. by right.
Qed.

Lemma date_mono (t1 t2 : Z) : t1 ≤ t2 → date t1 ≤ date t2.
Proof. intros Hle. unfold date. apply Z.div_le_mono; [done|exact Hle]. Qed.

Lemma filter_all {A : Type} (P : A -> Prop) `{!∀ x, Decision (P x)} (l : list A) :
  Forall P l → filter P l = l.
Proof.
  induction 1 as [|x l Hx _ IH]; [done|]. rewrite filter_cons_True by done. by rewrite IH.
Qed.

(** X5: with the widgets left at their defaults (the whole span of dates,
    every device, every session type) the filter keeps every row of a
    non-empty table, in order. *)
Theorem default_choices_select_all (df : list Row) :
  df ≠ [] →
  ∃ date_range, default_date_range df = Some date_range ∧
    apply_filters df date_range (default_devices df) (default_session_types df) = Ok df.
Proof.
  intros Hne. destruct df as [|r0 df]; [done|].
  eexists. split; [reflexivity|].
  rewrite apply_filters_filter. f_equal. apply filter_all.
  apply Forall_forall. intros r Hr.
  assert (startTime r ∈ startTime r0 :: (startTime <$> df)) as Hts.
  { rewrite <- fmap_cons. apply list_elem_of_fmap. eauto. }
  unfold passes, default_devices, default_session_types. split; [split|split].
  - apply date_mono. by apply foldr_min_le.
  - apply date_mono. by apply foldr_max_ge.
  - apply elem_of_unique, list_elem_of_fmap. eauto.
  - apply elem_of_unique, list_elem_of_fmap. eauto.
Qed.

(** X6: an empty selection of devices, or of session types, selects no row;
    there is no implicit "all". *)
Theorem apply_filters_empty_selection df start_date end_date devices session_types :
  apply_filters df [start_date; end_date] [] session_types = Ok [] ∧
  apply_filters df [start_date; end_date] devices [] = Ok [].
Proof.
  rewrite !apply_filters_filter. split; f_equal.
  - induction df as [|r df IH]; [done|]. rewrite filter_cons_False; [done|].
    unfold passes. intros (_ & Hd%elem_of_nil & _). done.
  - induction df as [|r df IH]; [done|]. rewrite filter_cons_False; [done|].
    unfold passes. intros (_ & _ & Ht%elem_of_nil). done.
Qed.

(** X8: widening the date range and the two selections loses no row: the old
    result is a subsequence of the new one. *)
Theorem apply_filters_monotone df s e s' e' devices devices' session_types session_types' :
  s' ≤ s → e ≤ e' → devices ⊆ devices' → session_types ⊆ session_types' →
  ∃ out out',
    apply_filters df [s; e] devices session_types = Ok out ∧
    apply_filters df [s'; e'] devices' session_types' = Ok out' ∧
    out `sublist_of` out'.
Proof.
  intros Hs He Hd Ht. do 2 eexists. rewrite !apply_filters_filter.
  split; [done|]. split; [done|].
  apply sublist_filter_max; [apply sublist_filter|].
  apply Forall_forall. intros r [Hp _]%list_elem_of_filter.
  destruct Hp as ([H1 H2] & H3 & H4). repeat split; [lia|lia|by apply Hd|by apply Ht].
Qed.

(** X9: two filters applied one after the other give the same table in
    either order. *)
Theorem apply_filters_commute df s1 e1 d1 t1 s2 e2 d2 t2 :
  (out ← apply_filters df [s1; e1] d1 t1; apply_filters out [s2; e2] d2 t2)
  = (out ← apply_filters df [s2; e2] d2 t2; apply_filters out [s1; e1] d1 t1).
Proof.
  rewrite !apply_filters_filter. cbn [mbind result_bind].
  rewrite !apply_filters_filter. f_equal.
  rewrite !list_filter_filter. apply list_filter_iff. tauto.
Qed.
(** X7: a date range with fewer than two entries (the widget returns one
    while only the first date of a range is picked) makes the filter raise
    [IndexError]. *)
Theorem apply_filters_incomplete_range df date_range devices session_types :
  (length date_range < 2)%nat →
  apply_filters df date_range devices session_types = Raise IndexError.
Proof.
  intros Hlen. destruct date_range as [|d0 [|d1 rest]]; [done|done|].
  cbn [length] in Hlen. lia.
Qed.

(** X16: the options of the two multiselects list every device, or every
    session type, of the table, each exactly once. *)
Theorem multiselect_options (df : list Row) :
  NoDup (default_devices df) ∧
  (∀ v, v ∈ default_devices df ↔ ∃ r, r ∈ df ∧ device r = v) ∧
  NoDup (default_session_types df) ∧
  (∀ v, v ∈ default_session_types df ↔ ∃ r, r ∈ df ∧ session_type r = v).
Proof.
  unfold default_devices, default_session_types.
  split; [apply NoDup_unique|]. split.
  { intros v. rewrite elem_of_unique, list_elem_of_fmap. split.
    - intros (r & -> & Hr). by exists r.
    - intros (r & Hr & <-). by exists r. }
  split; [apply NoDup_unique|].
  intros v. rewrite elem_of_unique, list_elem_of_fmap. split.
  - intros (r & -> & Hr). by exists r.
  - intros (r & Hr & <-). by exists r.
Qed.
End sidebar_facts.

Lemma default_choices_select_all_on_sample :
  ∃ date_range, Sidebar.default_date_range sample_table = Some date_range ∧
    Filter.apply_filters sample_table date_range (Sidebar.default_devices sample_table)
      (Sidebar.default_session_types sample_table) = Ok sample_table.
Proof. apply (default_choices_select_all sample_table). discriminate. Defined.

Lemma apply_filters_monotone_on_sample :
  ∃ out out',
    Filter.apply_filters sample_table [1; 4] ["mobile"] ["converted"] = Ok out ∧
    Filter.apply_filters sample_table [0; 5] ["mobile"; "desktop"] ["converted"] = Ok out' ∧
    out `sublist_of` out'.
Proof.
  apply (apply_filters_monotone sample_table 1 4 0 5); [lia|lia| |done].
  intros x ->%list_elem_of_singleton. apply elem_of_cons. by left.
Defined.

(** While only one date of the range is picked the tuple has one entry. *)
Lemma apply_filters_incomplete_range_on_sample :
  Filter.apply_filters sample_table [3] ["mobile"] ["converted"] = Raise IndexError.
Proof. apply apply_filters_incomplete_range. simpl. lia. Defined.

(** ** The rates, lines 119, 196 and 204 *)
Section rate_facts.
Import Metrics.

(** The [True] entries of [col == v] are the rows whose value is [v]. *)
Lemma count_eq_str {A : Type} (f : A -> string) (v : string) (df : list A) :
  sum_list_Z ((fun b : bool => if b then 1 else 0) <$> eq_str (f <$> df) v)
  = len (filter (fun r => f r = v) df).
Proof.
  unfold eq_str, len. induction df as [|r df IH]; [done|].
  rewrite !fmap_cons, sum_list_Z_cons, IH, filter_cons.
  destruct (decide (f r = v)) as [Heq|Hne].
  - rewrite bool_decide_eq_true_2 by done. cbn [length]. lia.
  - rewrite bool_decide_eq_false_2 by done. lia.
Qed.

(** X11: a rate is a finite number exactly on a non-empty table: the
    [nan] of the empty table shows there and nowhere else. *)
Theorem rate_finite_iff_nonempty (v : string) (filtered_df : list Row) :
  (∃ q : Qc, rate v filtered_df = Ok (NpFloat64 (FFin q))) ↔ filtered_df ≠ [].
Proof.
  split.
  - intros [q Hq] ->. vm_compute in Hq. discriminate.
  - intros Hne. unfold rate, sum_bool, truediv.
    cbn [is_numpy orb to_float mbind result_bind fdiv].
    assert (Qc_zero (Qc_of_Z (len filtered_df)) = false) as ->.
    { unfold Qc_zero. apply bool_decide_eq_false_2.
      rewrite <- Z2Qc_inj_0. intros Hz%Z2Qc_inj.
      destruct filtered_df; [done|]. unfold len in Hz. cbn [length] in Hz. lia. }
    cbn [mul is_numpy orb to_float fmul]. eauto.
Qed.

Lemma counts_disjoint (types : list string) (filtered_df : list Row) :
  NoDup types →
  sum_list_Z ((fun v => len (filter (fun r => session_type r = v) filtered_df)) <$> types)
  ≤ len filtered_df.
Proof.
  intros Hnd. unfold len. induction filtered_df as [|r df IH].
  - induction types as [|v types IHt]; [done|].
    apply NoDup_cons in Hnd as [_ Hnd]. rewrite fmap_cons, sum_list_Z_cons.
    specialize (IHt Hnd). cbn [length] in *. rewrite filter_nil. cbn [length]. lia.
  - cbn [length].
    assert (sum_list_Z ((fun v => Z.of_nat (length (filter (fun r' => session_type r' = v) (r :: df)))) <$> types)
            ≤ 1 + sum_list_Z ((fun v => Z.of_nat (length (filter (fun r' => session_type r' = v) df))) <$> types));
      [|lia].
    clear IH. induction Hnd as [|v types Hv Hnd IHt]; [done|].
    rewrite !fmap_cons, !sum_list_Z_cons, (filter_cons _ r df).
    destruct (decide (session_type r = v)) as [Heq|Hne].
    + cbn [length].
      assert (((fun v0 => Z.of_nat (length (filter (fun r' => session_type r' = v0) (r :: df)))) <$> types)
              = ((fun v0 => Z.of_nat (length (filter (fun r' => session_type r' = v0) df))) <$> types))
        as ->; [|lia].
      apply list_fmap_ext. intros _ v0 Hv0%list_elem_of_lookup_2.
      rewrite filter_cons_False; [done|]. intros Heq'. congruence.
    + lia.
Qed.

(** X12: the comparisons [session_type == v] for different values [v]
    are [True] on different rows: over pairwise different values their
    numbers of [True] entries add up to at most the number of rows. *)
Theorem rates_count_disjoint_rows (types : list string) (filtered_df : list Row) :
  NoDup types →
  sum_list_Z
    ((fun v => sum_list_Z ((fun b : bool => if b then 1 else 0)
                             <$> eq_str (session_type <$> filtered_df) v)) <$> types)
  ≤ len filtered_df.
Proof.
  intros Hnd.
  rewrite (list_fmap_ext _
    (fun v => len (filter (fun r => session_type r = v) filtered_df)) types);
    [by apply counts_disjoint|].
  intros _ v _. apply count_eq_str.
Qed.
End rate_facts.

Lemma rates_count_disjoint_rows_on_sample :
  Metrics.sum_list_Z
    ((fun v => Metrics.sum_list_Z ((fun b : bool => if b then 1 else 0)
                  <$> Metrics.eq_str (session_type <$> sample_table) v))
       <$> ["converted"; "cart_abandoned"; "bounced"])
  ≤ Metrics.len sample_table.
Proof.
  apply (rates_count_disjoint_rows ["converted"; "cart_abandoned"; "bounced"] sample_table).
  apply (bool_decide_unpack _). vm_compute. exact I.
Defined.

(** ** The counts behind the charts, lines 133, 143, 168 and 178 *)
Section chart_facts.
Import Aggregates Charts.

Lemma sum_ones {A : Type} (l : list A) :
  Metrics.sum_list_Z ((fun _ => 1) <$> l) = Metrics.len l.
Proof.
  unfold Metrics.len. induction l as [|x l IH]; [done|].
  rewrite fmap_cons, sum_list_Z_cons, IH. cbn [length]. lia.
Qed.

Lemma len_as_sum {A : Type} (l : list A) :
  Metrics.len l = Metrics.sum_list_Z ((fun _ => 1) <$> l).
Proof. symmetry. apply sum_ones. Qed.

(** The counts before sorting: one entry per distinct value, holding its
    number of occurrences, and together as many as the column is long. *)
Lemma counts_index (col : list string) : (counts col).*1 = Sidebar.unique col.
Proof.
  unfold counts. generalize (Sidebar.unique col) as vs.
  induction vs as [|v vs IH]; csimpl; [done|]. by rewrite IH.
Qed.

Lemma elem_of_counts (col : list string) v n :
  (v, n) ∈ counts col ↔ v ∈ col ∧ n = Metrics.len (filter (fun x => x = v) col).
Proof.
  unfold counts. rewrite list_elem_of_fmap. split.
  - intros (v' & Heq & Hin). injection Heq as -> ->.
    split; [|done]. exact (proj1 (elem_of_unique col v') Hin).
  - intros [Hin ->]. exists v. split; [done|]. by apply elem_of_unique.
Qed.

Lemma counts_total (col : list string) :
  Metrics.sum_list_Z (counts col).*2 = Metrics.len col.
Proof.
  unfold counts. rewrite <- list_fmap_compose.
  rewrite (list_fmap_ext _
    (fun v => Metrics.sum_list_Z ((fun _ => 1) <$> filter (fun x => id x = v) col))
    (Sidebar.unique col)).
  - rewrite (sum_over_groups (fun _ => 1) id); [by rewrite <- len_as_sum| |].
    + apply NoDup_unique.
    + intros r Hr. by apply elem_of_unique.
  - intros _ v _. simpl. apply len_as_sum.
Qed.

Lemma take_idx_elem_of {A : Type} (values : list A) (ix : list nat) (out : list A) :
  take_idx values ix = Ok out → ∀ x, x ∈ out → x ∈ values.
Proof.
  unfold take_idx. revert out. induction ix as [|i ix IH]; intros out Hok x Hx.
  - injection Hok as <-. by apply elem_of_nil in Hx.
  - cbn [traverse] in Hok.
    destruct (index values i) as [y|e1] eqn:Hy; [|discriminate].
    cbn [mbind result_bind] in Hok.
    destruct (traverse (index values) ix) as [ys|e2] eqn:Hys; [|discriminate].
    cbn [mbind result_bind] in Hok. injection Hok as <-.
    apply elem_of_cons in Hx as [->|Hx].
    + unfold index in Hy. destruct (values !! i) as [y'|] eqn:Hy'; [|discriminate].
      injection Hy as ->. by eapply list_elem_of_lookup_2.
    + by eapply IH.
Qed.

(** Whatever the sort does, what it returns are entries of the Series it
    was given. *)
Lemma sort_values_desc_elem_of {K : Type} (argsort : list Z -> list nat)
    (s out : list (K * Z)) :
  sort_values_desc argsort s = Ok out → ∀ x, x ∈ out → x ∈ s.
Proof.
  unfold sort_values_desc. intros Hok.
  destruct (nargsort_desc argsort s.*2) as [ix|e1]; [|discriminate].
  cbn [mbind result_bind] in Hok. by eapply take_idx_elem_of.
Qed.

(** X13: the counts of a pie or bar chart list every distinct value of
    the column once, with its number of rows, sorted descending by that
    number; every count is positive and together they count every row. *)
Theorem value_counts_spec (argsort : list Z -> list nat) (col : list string) :
  is_argsort (reverse (counts col).*2) (argsort (reverse (counts col).*2)) →
  ∃ out, value_counts argsort col = Ok out ∧
    sorted_desc out ∧
    NoDup out.*1 ∧
    (∀ v n, (v, n) ∈ out ↔ v ∈ col ∧ n = Metrics.len (filter (fun x => x = v) col)) ∧
    (∀ v n, (v, n) ∈ out → 0 < n) ∧
    Metrics.sum_list_Z out.*2 = Metrics.len col.
Proof.
  intros Harg.
  destruct (sort_values_desc_spec argsort _ Harg) as (out & Hout & Hsorted & Hperm).
  exists out. split; [exact Hout|]. split; [exact Hsorted|].
  assert (Hiff : ∀ v n, (v, n) ∈ out ↔
            v ∈ col ∧ n = Metrics.len (filter (fun x => x = v) col)).
  { intros v n. rewrite Hperm. apply elem_of_counts. }
  split; [|split; [exact Hiff|split]].
  - rewrite Hperm, counts_index. apply NoDup_unique.
  - intros v n [Hv ->]%Hiff.
    assert (v ∈ filter (fun x => x = v) col) as Hin by (by apply list_elem_of_filter).
    unfold Metrics.len. destruct (filter _ col); [by apply elem_of_nil in Hin|].
    cbn [length]. lia.
  - rewrite <- counts_total. apply sum_list_Z_Permutation. by rewrite Hperm.
Qed.

(** X14: the daily counts add up to the number of rows: every session is
    counted on exactly one date. *)
Theorem sessions_by_date_total (filtered_df : list Row) :
  Metrics.sum_list_Z (sessions_by_date filtered_df).*2 = Metrics.len filtered_df.
Proof.
  unfold sessions_by_date. rewrite groupby_values.
  rewrite (list_fmap_ext _
    (fun d => Metrics.sum_list_Z
                ((fun _ => 1) <$> filter (fun r => Filter.date (startTime r) = d) filtered_df))
    (group_keys Z.le ((fun r => Filter.date (startTime r)) <$> filtered_df))).
  - rewrite (sum_over_groups (fun _ => 1) (fun r => Filter.date (startTime r)));
      [by rewrite <- len_as_sum| |].
    + apply NoDup_group_keys.
    + intros r Hr. apply elem_of_group_keys, list_elem_of_fmap. eauto.
  - intros _ d _. apply len_as_sum.
Qed.

(** X15: the charts show only what was selected: after filtering, every
    date of the daily series lies in the date range, every device of the
    device chart is a selected device and every type of the type chart a
    selected session type, whatever the sort does. *)
Theorem charts_within_selection df start_date end_date devices session_types :
  ∃ filtered_df,
    Filter.apply_filters df [start_date; end_date] devices session_types = Ok filtered_df ∧
    (∀ d n, (d, n) ∈ sessions_by_date filtered_df → start_date ≤ d ≤ end_date) ∧
    (∀ argsort out v n, device_counts argsort filtered_df = Ok out →
       (v, n) ∈ out → v ∈ devices) ∧
    (∀ argsort out v n, type_counts argsort filtered_df = Ok out →
       (v, n) ∈ out → v ∈ session_types).
Proof.
  eexists. split; [apply apply_filters_filter|].
  set (P := Filter.passes start_date end_date devices session_types).
  split; [|split].
  - intros d n [(r & Hr & <-) _]%elem_of_groupby.
    apply list_elem_of_filter in Hr as [Hp _]. apply Hp.
  - intros argsort out v n Hok Hin.
    apply (sort_values_desc_elem_of _ _ _ Hok), elem_of_counts in Hin as [Hv _].
    apply list_elem_of_fmap in Hv as (r & -> & Hr).
    apply list_elem_of_filter in Hr as [Hp _]. apply Hp.
  - intros argsort out v n Hok Hin.
    apply (sort_values_desc_elem_of _ _ _ Hok), elem_of_counts in Hin as [Hv _].
    apply list_elem_of_fmap in Hv as (r & -> & Hr).
    apply list_elem_of_filter in Hr as [Hp _]. apply Hp.
Qed.
End chart_facts.

Lemma value_counts_spec_on_sample :
  ∃ out, Charts.value_counts Aggregates.insertion_argsort (device <$> sample_table) = Ok out ∧
    Aggregates.sorted_desc out ∧
    NoDup out.*1 ∧
    (∀ v n, (v, n) ∈ out ↔
       v ∈ device <$> sample_table ∧
       n = Metrics.len (filter (fun x => x = v) (device <$> sample_table))) ∧
    (∀ v n, (v, n) ∈ out → 0 < n) ∧
    Metrics.sum_list_Z out.*2 = Metrics.len (device <$> sample_table).
Proof.
  apply (value_counts_spec Aggregates.insertion_argsort (device <$> sample_table)).
  apply (bool_decide_unpack _). vm_compute. exact I.
Defined.
